(** * Build cache resolution of the daemon: a shallow embedding

    The Go sources embedded here are the daemon's image lookup and build
    cache code ([GetImageID], [GetImage], [GetCachedImage],
    [MakeImageCacheForBuild], [makeHistoryWithSource],
    [cacheSearchCoroutine], [GetCachedImageOnBuild]) and the plugin
    boundary of [image_cache_plugin.go].

    Conventions.
    - [image.ID], [layer.DiffID] and [digest.Digest] are Go string types:
      they are [string] here.
    - [time.Time] is an instant on the integer line; [Before] is [<].
    - A Go function either returns, returns a non-nil [error], or panics;
      [result] has one constructor for each, and one more for a function
      body whose end is reached with no [return] statement.
    - A Go map is [option (gmap K V)]: [None] is the nil map, which reads
      as empty and panics on assignment.
    - Pointers to images and [image.RootFS] are taken to be non-nil where
      the code dereferences them; a slice's capacity is its length. *)

From stdpp Require Import base option list strings gmap fin_maps.
From Stdlib Require Import ZArith Lia.

Local Open Scope Z_scope.
Local Open Scope string_scope.

(** ** Outcomes of Go code *)

Inductive panic : Type :=
| IndexOutOfRange        (* runtime error: index out of range *)
| SliceBoundsOutOfRange  (* runtime error: slice bounds out of range *)
| AssignNilMap.          (* assignment to entry in nil map *)

Inductive error : Type :=
| ErrImageDoesNotExist (RefOrID : string)      (* "no such id: %s" *)
| ErrUnableToFindImage (id : string)           (* fmt.Errorf("unable to find image %q", id) *)
| ErrCollaborator (msg : string).              (* an error value made outside this package *)

Inductive result (A : Type) : Type :=
| Ret (a : A)            (* the function returns a value (and a nil error) *)
| Fail (e : error)       (* the function returns a non-nil error *)
| Panic (p : panic)      (* a run-time panic unwinds the goroutine *)
| MissingReturn.         (* the end of the body is reached; no return statement is written *)

Arguments Ret {A} a.
Arguments Fail {A} e.
Arguments Panic {A} p.
Arguments MissingReturn {A}.

#[global] Instance panic_eq_dec : EqDecision panic.
Proof. solve_decision. Defined.

#[global] Instance error_eq_dec : EqDecision error.
Proof. solve_decision. Defined.

#[global] Instance result_ret : MRet result := @Ret.

#[global] Instance result_bind : MBind result := fun A B k r =>
  match r with
  | Ret a => k a
  | Fail e => Fail e
  | Panic p => Panic p
  | MissingReturn => MissingReturn
  end.

(** [a[i]] on a slice: the bounds check of the Go runtime. *)
Definition index {A : Type} (a : list A) (i : Z) : result A :=
  if bool_decide (0 <= i) then
    match a !! Z.to_nat i with
    | Some x => Ret x
    | None => Panic IndexOutOfRange
    end
  else Panic IndexOutOfRange.

(** [a[0:high]] on a slice whose capacity is its length. *)
Definition slice_to {A : Type} (a : list A) (high : nat) : result (list A) :=
  if bool_decide (high ≤ length a)%nat then Ret (take high a)
  else Panic SliceBoundsOutOfRange.

(** A Go map value; [None] is nil. *)
Abbreviation gomap V := (option (gmap string V)).

(** [m[k]] as an expression: the zero value is the caller's concern, so
    the read returns an [option]. A nil map reads as empty. *)
Definition map_read {V : Type} (m : gomap V) (k : string) : option V :=
  match m with
  | None => None
  | Some g => g !! k
  end.

(** [m[k] = v]. *)
Definition map_assign {V : Type} (m : gomap V) (k : string) (v : V) : result (gomap V) :=
  match m with
  | None => Panic AssignNilMap
  | Some g => Ret (Some (<[k := v]> g))
  end.

(** [range m]: the entries in the order the loop visits them. *)
Definition map_range {V : Type} (m : gomap V) : list (string * V) :=
  match m with
  | None => []
  | Some g => map_to_list g
  end.

(** ** Images and their history *)

Abbreviation image_ID := string (only parsing).
Abbreviation DiffID := string (only parsing).
Abbreviation Time := Z (only parsing).

(** [image.History]: one entry per build instruction. *)
Record History : Type := mkHistory {
  h_Created : Time;
  h_CreatedBy : string;
  h_EmptyLayer : bool
}.

(** One step of an image's history: the layer the command ran on, the
    command, and the layer it left. *)
Record historyWithSourceT : Type := mkHistoryWithSource {
  sourceLayerID : DiffID;
  cmd : string;
  resultingLayerID : DiffID;
  createdAt : Time
}.

#[global] Instance History_eq_dec : EqDecision History.
Proof. solve_decision. Defined.

#[global] Instance historyWithSourceT_eq_dec : EqDecision historyWithSourceT.
Proof. solve_decision. Defined.

Section Daemon.

(** The build configuration and its comparator ([runconfig.Compare]) are
    collaborators, and so is the digest of the empty layer
    ([digest.DigestSha256EmptyTar]). *)
Context {Config : Type}.
Variable Compare : Config → Config → bool.
Variable DigestSha256EmptyTar : DiffID.

Record Image : Type := mkImage {
  ID : image_ID;
  Parent : image_ID;
  ContainerConfig : Config;
  Created : Time;
  History_ : list History;        (* image.History *)
  RootFS_DiffIDs : list DiffID    (* image.RootFS.DiffIDs *)
}.

(** *** makeHistoryWithSource *)

(** The two [if layerIndex == -1 {...} else {...}] statements. *)
Definition layerAt (image : Image) (layerIndex : Z) : result DiffID :=
  if bool_decide (layerIndex = -1) then Ret DigestSha256EmptyTar
  else index (RootFS_DiffIDs image) layerIndex.

(** The body of [for i, h := range image.History], with [layerIndex]
    threaded through; the elements written to [historyWithSource[i]] are
    consed in order. *)
Fixpoint makeHistoryWithSource_loop (image : Image) (layerIndex : Z)
    (history : list History) : result (list historyWithSourceT) :=
  match history with
  | [] => Ret []
  | h :: rest =>
      src ← layerAt image layerIndex;
      let layerIndex' := if negb (h_EmptyLayer h) then layerIndex + 1 else layerIndex in
      res ← layerAt image layerIndex';
      tl ← makeHistoryWithSource_loop image layerIndex' rest;
      Ret ({| sourceLayerID := src;
              cmd := h_CreatedBy h;
              resultingLayerID := res;
              createdAt := h_Created h |} :: tl)
  end.

Definition makeHistoryWithSource (image : Image) : result (list historyWithSourceT) :=
  makeHistoryWithSource_loop image (-1) (History_ image).

(** ** The stores behind the daemon *)

(** A parsed reference ([reference.Named]); it is a
    [reference.NamedTagged] when it carries a tag. *)
Record Reference : Type := mkReference {
  ref_Name : string;
  ref_Tag : option string
}.

(** The collaborators of [*Daemon] that this code calls. A Go pair
    [(v, err)] is a sum: [inl err] when [err != nil]. [imageStore_Map] is
    the store's map as a [range] statement visits it; Go fixes no order
    for that, and it differs from one run to the next. *)
Record Daemon : Type := mkDaemon {
  ParseIDOrReference : string → error + (string * Reference);
  imageStore_Get : image_ID → error + Image;
  imageStore_Search : string → error + image_ID;
  imageStore_Children : image_ID → list image_ID;
  imageStore_Map : list (image_ID * Image);
  referenceStore_Get : Reference → error + image_ID;
  referenceStore_References : image_ID → list Reference
}.

(** *** GetImageID, GetImage, GetImageOnBuild *)

Definition GetImageID (daemon : Daemon) (refOrID : string) : result image_ID :=
  match ParseIDOrReference daemon refOrID with
  | inl err => Fail err
  | inr (id, ref) =>
      if bool_decide (id ≠ "") then
        match imageStore_Get daemon id with
        | inl _ => Fail (ErrImageDoesNotExist refOrID)
        | inr _ => Ret id
        end
      else
        match referenceStore_Get daemon ref with
        | inr id => Ret id
        | inl _ =>
            (* Search based on ID *)
            let searchByID :=
              match imageStore_Search daemon refOrID with
              | inr id => Ret id
              | inl _ => Fail (ErrImageDoesNotExist refOrID)
              end in
            match ref_Tag ref with
            | Some tag =>
                match imageStore_Search daemon tag with
                | inr id =>
                    if existsb (λ namedRef, bool_decide (ref_Name namedRef = ref_Name ref))
                         (referenceStore_References daemon id)
                    then Ret id
                    else searchByID
                | inl _ => searchByID
                end
            | None => searchByID
            end
        end
  end.

Definition GetImage (daemon : Daemon) (refOrID : string) : result Image :=
  imgID ← GetImageID daemon refOrID;
  match imageStore_Get daemon imgID with
  | inl err => Fail err
  | inr img => Ret img
  end.

Definition GetImageOnBuild (daemon : Daemon) (name : string) : result Image :=
  GetImage daemon name.

(** *** GetCachedImage *)

(** The closure [getMatch]: the loop over [siblings], with the variable
    [match] threaded through (it is [match_] here; [None] is nil). *)
Fixpoint getMatch_loop (daemon : Daemon) (config : Config)
    (siblings : list image_ID) (match_ : option Image) : result (option Image) :=
  match siblings with
  | [] => Ret match_
  | id :: rest =>
      match imageStore_Get daemon id with
      | inl _ => Fail (ErrUnableToFindImage id)
      | inr img =>
          if Compare (ContainerConfig img) config then
            (* check for the most up to date match *)
            if match match_ with
               | None => true
               | Some m => bool_decide (Created m < Created img)
               end
            then getMatch_loop daemon config rest (Some img)
            else getMatch_loop daemon config rest match_
          else getMatch_loop daemon config rest match_
      end
  end.

Definition getMatch (daemon : Daemon) (config : Config)
    (siblings : list image_ID) : result (option Image) :=
  getMatch_loop daemon config siblings None.

(** The IDs [GetCachedImage] hands to [getMatch], in order: for
    [FROM scratch] the images of the store's map that have no parent, as
    the [range] visits them; otherwise the store's children of [imgID]. *)
Definition siblingsOf (daemon : Daemon) (imgID : image_ID) : list image_ID :=
  if bool_decide (imgID = "") then
    (filter (λ e, Parent e.2 = imgID) (imageStore_Map daemon)).*1
  else imageStore_Children daemon imgID.

Definition GetCachedImage (daemon : Daemon) (imgID : image_ID) (config : Config)
    : result (option Image) :=
  getMatch daemon config (siblingsOf daemon imgID).

(** *** The build's cache and MakeImageCacheForBuild *)

Record daemonImageCacheForBuild : Type := mkCache {
  cacheFromImages : gomap Image;
  cacheFromImageHistories : gomap (list historyWithSourceT);
  daemon_ : Daemon
}.

(** The body of [for _, cacheFromImageName := range cacheFrom]. *)
Fixpoint MakeImageCacheForBuild_loop (daemon : Daemon)
    (cache : daemonImageCacheForBuild) (cacheFrom : list string)
    : result daemonImageCacheForBuild :=
  match cacheFrom with
  | [] => Ret cache
  | cacheFromImageName :: rest =>
      match GetImage daemon cacheFromImageName with
      | Fail _ => (* logged; continue *)
          MakeImageCacheForBuild_loop daemon cache rest
      | Ret cacheFromImage =>
          images ← map_assign (cacheFromImages cache) cacheFromImageName cacheFromImage;
          history ← makeHistoryWithSource cacheFromImage;
          histories ← map_assign (cacheFromImageHistories cache) cacheFromImageName history;
          MakeImageCacheForBuild_loop daemon
            {| cacheFromImages := images;
               cacheFromImageHistories := histories;
               daemon_ := daemon_ cache |} rest
      | Panic p => Panic p
      | MissingReturn => MissingReturn
      end
  end.

(** The composite literal names [daemon] only: both maps are nil. *)
Definition MakeImageCacheForBuild (daemon : Daemon) (cacheFrom : list string)
    : result daemonImageCacheForBuild :=
  MakeImageCacheForBuild_loop daemon
    {| cacheFromImages := None; cacheFromImageHistories := None; daemon_ := daemon |}
    cacheFrom.

(** *** cacheSearchCoroutine *)

(** What arrives on [data.reqChan] and what is sent on [data.resChan]. The
    request type and [cacheCoroutineData] are declared in no source file;
    their fields are the ones the coroutine uses. *)
Record nextCachedLayerRequest : Type := mkRequest {
  nextCmd : string;
  prevLayerIDs : list DiffID
}.

Record nextCachedLayerResponse : Type := mkResponse {
  nextLayerID : DiffID;
  res_createdAt : Time;
  cachedFrom : string
}.

Record cacheCoroutineData : Type := mkData {
  cacheFromImage : Image;
  cacheFromImageName_ : string
}.

(** The zero [time.Time] of a response that sets [nextLayerID] only. *)
Definition zeroTime : Time := 0.

(** A response is a match when its [nextLayerID] is not empty. *)
Definition matched (res : nextCachedLayerResponse) : bool :=
  bool_decide (nextLayerID res ≠ "").

(** An element read of the comparison loop, by slice. *)
Inductive read : Type :=
| ReadPrev (i : nat)    (* prevStepCachedLayers[i] *)
| ReadReq (i : nat).    (* req.prevLayerIDs[i] *)

(** [for i := 0; i <= len(prevStepCachedLayers); i++ { ... }] entered at
    index [i] with [trips] iterations left before the condition fails. It
    gives the element reads it makes, in order, and [matchesLayerIDs]. *)
Fixpoint compare_loop (trips : nat) (i : nat)
    (prevStepCachedLayers prevLayerIDs : list DiffID) : list read * result bool :=
  match trips with
  | O => ([], Ret true)
  | S trips' =>
      match prevStepCachedLayers !! i with
      | None => ([ReadPrev i], Panic IndexOutOfRange)
      | Some a =>
          match prevLayerIDs !! i with
          | None => ([ReadPrev i; ReadReq i], Panic IndexOutOfRange)
          | Some b =>
              if bool_decide (a ≠ b) then ([ReadPrev i; ReadReq i], Ret false)
              else
                let '(reads, m) :=
                  compare_loop trips' (S i) prevStepCachedLayers prevLayerIDs in
                (ReadPrev i :: ReadReq i :: reads, m)
          end
      end
  end.

(** The [if len(...) == len(...) {...} else {...}] statement: indices
    0, 1, ..., len are visited, so the loop makes len + 1 trips. *)
Definition compareLayers (prevStepCachedLayers prevLayerIDs : list DiffID)
    : list read * result bool :=
  if bool_decide (length prevStepCachedLayers = length prevLayerIDs) then
    compare_loop (S (length prevStepCachedLayers)) 0 prevStepCachedLayers prevLayerIDs
  else ([], Ret false).

(** The statement before the receive: [prevStepCachedLayers] is re-sliced
    to its own length when the step has a source layer. *)
Definition updatePrev (data : cacheCoroutineData) (h : historyWithSourceT)
    (prevStepCachedLayers : list DiffID) : result (list DiffID) :=
  if bool_decide (sourceLayerID h ≠ DigestSha256EmptyTar) then
    slice_to (RootFS_DiffIDs (cacheFromImage data)) (length prevStepCachedLayers)
  else Ret prevStepCachedLayers.

(** What one iteration sends on [resChan] for the request it received. *)
Definition respond (data : cacheCoroutineData) (h : historyWithSourceT)
    (prevStepCachedLayers : list DiffID) (req : nextCachedLayerRequest)
    : result nextCachedLayerResponse :=
  matchesLayerIDs ← (compareLayers prevStepCachedLayers (prevLayerIDs req)).2;
  if bool_decide (nextCmd req = cmd h) && matchesLayerIDs then
    Ret {| nextLayerID := resultingLayerID h;
           res_createdAt := createdAt h;
           cachedFrom := cacheFromImageName_ data |}
  else
    Ret {| nextLayerID := ""; res_createdAt := zeroTime; cachedFrom := "" |}.

(** [for _, h := range historyWithSource]. [reqChan] lists the requests
    the channel delivers before it is closed. The result is what was sent
    on [resChan], and how the goroutine ended: [Ret tt] when the function
    returned, [Panic] when it crashed. *)
Fixpoint cacheSearchCoroutine_loop (data : cacheCoroutineData)
    (historyWithSource : list historyWithSourceT)
    (prevStepCachedLayers : list DiffID) (reqChan : list nextCachedLayerRequest)
    : list nextCachedLayerResponse * result unit :=
  match historyWithSource with
  | [] => ([], Ret tt)
  | h :: rest =>
      match updatePrev data h prevStepCachedLayers with
      | Ret prev =>
          match reqChan with
          | [] => ([], Ret tt)   (* !ok: break *)
          | req :: reqs =>
              match respond data h prev req with
              | Ret res =>
                  let '(sent, ending) := cacheSearchCoroutine_loop data rest prev reqs in
                  (res :: sent, ending)
              | Fail e => ([], Fail e)
              | Panic p => ([], Panic p)
              | MissingReturn => ([], MissingReturn)
              end
          end
      | Fail e => ([], Fail e)
      | Panic p => ([], Panic p)
      | MissingReturn => ([], MissingReturn)
      end
  end.

Definition cacheSearchCoroutine (data : cacheCoroutineData)
    (reqChan : list nextCachedLayerRequest)
    : list nextCachedLayerResponse * result unit :=
  match makeHistoryWithSource (cacheFromImage data) with
  | Ret historyWithSource => cacheSearchCoroutine_loop data historyWithSource [] reqChan
  | Fail e => ([], Fail e)
  | Panic p => ([], Panic p)
  | MissingReturn => ([], MissingReturn)
  end.

(** *** GetCachedImageOnBuild *)

(** [for cacheFromName, cacheFromImage := range cache.cacheFromImages]:
    the body tests the lengths and continues; it assigns nothing. *)
Fixpoint GetCachedImageOnBuild_loop (cache : daemonImageCacheForBuild)
    (parentImageHistory : list historyWithSourceT)
    (entries : list (string * Image)) : unit :=
  match entries with
  | [] => tt
  | (cacheFromName, cacheFromImage) :: rest =>
      if bool_decide
           (length (default [] (map_read (cacheFromImageHistories cache) cacheFromName))
            ≤ length parentImageHistory)%nat
      then (* continue *) GetCachedImageOnBuild_loop cache parentImageHistory rest
      else GetCachedImageOnBuild_loop cache parentImageHistory rest
  end.

Definition GetCachedImageOnBuild (cache : daemonImageCacheForBuild)
    (imgID : string) (cfg : Config) : result string :=
  cachedImage ← GetCachedImage (daemon_ cache) imgID cfg;
  match cachedImage with
  | Some img =>
      (* We found a cache hit using the old parent image method *)
      Ret (ID img)
  | None =>
      parentImage ← GetImage (daemon_ cache) imgID;
      parentImageHistory ← makeHistoryWithSource parentImage;
      let 'tt := GetCachedImageOnBuild_loop cache parentImageHistory
                   (map_range (cacheFromImages cache)) in
      MissingReturn
  end.

(** *** The plugin boundary *)

Record WantsCachedImageRequest : Type := mkWantsRequest {
  ParentImageId : string;
  req_ContainerConfig : Config
}.

Record WantsCachedImageResponse : Type := mkWantsResponse {
  ImageId : string;
  Err : string
}.

(** The interface [ImageCachePlugin]; nothing in the sources calls it. *)
Record ImageCachePlugin : Type := mkPlugin {
  Name : string;
  WantsCachedImage : WantsCachedImageRequest → error + WantsCachedImageResponse
}.

(** ** Vocabulary of the properties *)

(** The number of history entries that produced a layer. *)
Definition producedLayers (history : list History) : nat :=
  length (filter (λ h, h_EmptyLayer h = false) history).

(** The index after the conditional increment, as a layer count. *)
Definition countAfter (k : nat) (h : History) : nat :=
  if h_EmptyLayer h then k else S k.

(** Each step starts from the layer the step before it ended on. *)
Fixpoint chained (src : DiffID) (steps : list historyWithSourceT) : Prop :=
  match steps with
  | [] => True
  | s :: tl => sourceLayerID s = src ∧ chained (resultingLayerID s) tl
  end.

(** The image at position [j] of [siblings] is in the store and has a
    configuration equal to [config]. *)
Definition candidateAt (daemon : Daemon) (config : Config)
    (siblings : list image_ID) (j : nat) (img : Image) : Prop :=
  ∃ id, siblings !! j = Some id
        ∧ imageStore_Get daemon id = inr img
        ∧ Compare (ContainerConfig img) config = true.

(** What the loop of [getMatch] leaves in [match], given what it held
    on entry ([acc]). *)
Record getMatch_post (daemon : Daemon) (config : Config)
    (siblings : list image_ID) (acc r : option Image) : Prop := {
  post_bounds : ∀ j img, candidateAt daemon config siblings j img →
    ∃ m, r = Some m ∧ Created img <= Created m;
  post_keeps : ∀ a, acc = Some a → ∃ m, r = Some m ∧ Created a <= Created m;
  post_origin : r = acc ∨
    ∃ k m, r = Some m
      ∧ candidateAt daemon config siblings k m
      ∧ (∀ a, acc = Some a → Created a < Created m)
      ∧ (∀ j img, candidateAt daemon config siblings j img →
           (j < k)%nat → Created img < Created m)
}.

(** The index an element read is made at. *)
Definition read_index (r : read) : nat :=
  match r with
  | ReadPrev i => i
  | ReadReq i => i
  end.

(** The response of the coroutine's else branch: [nextLayerID] is empty
    and the other fields are zero. *)
Definition emptyResponse : nextCachedLayerResponse :=
  {| nextLayerID := ""; res_createdAt := zeroTime; cachedFrom := "" |}.

End Daemon.

Arguments Image : clear implicits.
Arguments Daemon : clear implicits.
Arguments daemonImageCacheForBuild : clear implicits.
Arguments cacheCoroutineData : clear implicits.

(** * Test data

    A store over string configurations compared by equality, used to
    evaluate the code on concrete inputs. *)

Module Fixture.

Definition cmp (a b : string) : bool := bool_decide (a = b).

(** The value of [digest.DigestSha256EmptyTar]. *)
Definition emptyTar : DiffID :=
  "sha256:e3b0c44298fc1c149afbf4c8996fb92427ae41e4649b934ca495991b7852b855".

Definition image (id parent config : string) (created : Time)
    (history : list History) (diffIDs : list DiffID) : Image string :=
  {| ID := id; Parent := parent; ContainerConfig := config; Created := created;
     History_ := history; RootFS_DiffIDs := diffIDs |}.

Fixpoint find (store : list (image_ID * Image string)) (id : image_ID)
    : error + Image string :=
  match store with
  | [] => inl (ErrCollaborator "image not in store")
  | (id', img) :: rest => if bool_decide (id' = id) then inr img else find rest id
  end.

(** A daemon over the listed images. Every non-empty name parses as an
    ID; the empty name does not parse; there are no tags. *)
Definition daemonOf (store : list (image_ID * Image string)) : Daemon string :=
  {| ParseIDOrReference := λ s,
       if bool_decide (s = "") then inl (ErrCollaborator "empty reference")
       else inr (s, mkReference "" None);
     imageStore_Get := find store;
     imageStore_Search := λ _, inl (ErrCollaborator "no match");
     imageStore_Children := λ id,
       (filter (λ e, Parent e.2 = id) store).*1;
     imageStore_Map := store;
     referenceStore_Get := λ _, inl (ErrCollaborator "no such reference");
     referenceStore_References := λ _, [] |}.

(** History [A] (no layer), [B] (a layer), over the layer [L1]. *)
Definition imageAB : Image string :=
  image "ab" "" "cfg" 20
    [mkHistory 10 "A" true; mkHistory 20 "B" false] ["L1"].

(** One layer-producing entry and no layer. *)
Definition corruptImage : Image string :=
  image "corrupt" "" "cfg" 20 [mkHistory 20 "B" false] [].

(** Two layer-producing entries over two layers. *)
Definition imageI : Image string :=
  image "I" "" "cfg-b" 20
    [mkHistory 10 "A" false; mkHistory 20 "B" false] ["L1"; "L2"].

(** A parent with two children of equal configuration, built at 1 and 2. *)
Definition parentP : Image string := image "p" "" "base" 0 [] [].
Definition childOld : Image string := image "old" "p" "cfg" 1 [] [].
Definition childNew : Image string := image "new" "p" "cfg" 2 [] [].

Definition daemonP : Daemon string :=
  daemonOf [("p", parentP); ("new", childNew); ("old", childOld)].

(** Two parentless images of equal configuration built at the same time,
    in a store whose map is ranged over in one order and in the other. *)
Definition twinA : Image string := image "a" "" "cfg" 5 [] [].
Definition twinB : Image string := image "b" "" "cfg" 5 [] [].

Definition daemonAB : Daemon string := daemonOf [("a", twinA); ("b", twinB)].
Definition daemonBA : Daemon string := daemonOf [("b", twinB); ("a", twinA)].

(** A store that holds [imageI] and a childless parent. *)
Definition daemonI : Daemon string :=
  daemonOf [("I", imageI); ("p", parentP)].

Definition cacheOf (daemon : Daemon string) : daemonImageCacheForBuild string :=
  {| cacheFromImages := None; cacheFromImageHistories := None; daemon_ := daemon |}.

(** A store like [daemonP]'s whose index lists a child it does not hold. *)
Definition daemonDangling : Daemon string :=
  {| ParseIDOrReference := ParseIDOrReference (daemonOf []);
     imageStore_Get := find [("p", parentP); ("new", childNew); ("old", childOld)];
     imageStore_Search := λ _, inl (ErrCollaborator "no match");
     imageStore_Children := λ id,
       if bool_decide (id = "p") then ["new"; "ghost"; "old"] else [];
     imageStore_Map := [("p", parentP); ("new", childNew); ("old", childOld)];
     referenceStore_Get := λ _, inl (ErrCollaborator "no such reference");
     referenceStore_References := λ _, [] |}.

(** A store in which every name parses as a reference tagged [latest],
    the reference store knows no reference, and the tag search finds
    [imageI], which goes by the name [app]. *)
Definition daemonTagged : Daemon string :=
  {| ParseIDOrReference := λ s, inr ("", mkReference s (Some "latest"));
     imageStore_Get := find [("I", imageI)];
     imageStore_Search := λ key,
       if bool_decide (key = "latest") then inr "I"
       else inl (ErrCollaborator "no match");
     imageStore_Children := λ _, [];
     imageStore_Map := [("I", imageI)];
     referenceStore_Get := λ _, inl (ErrCollaborator "no such reference");
     referenceStore_References := λ _, [mkReference "app" (Some "latest")] |}.

(** A store that holds the corrupt image, which has no children. *)
Definition daemonCorrupt : Daemon string :=
  daemonOf [("corrupt", corruptImage)].

End Fixture.

(** * Properties *)

Section Properties.

Context {Config : Type}.
Variable Compare : Config → Config → bool.
Variable EMPTY : DiffID.

Implicit Types (image : Image Config) (history : list History)
  (steps : list historyWithSourceT).

(** ** makeHistoryWithSource *)

(** [layerIndex] is one less than the number [k] of layers counted so far. *)
Lemma layerAt_count image (k : nat) :
  layerAt EMPTY image (Z.of_nat k - 1) =
  match k with
  | O => Ret EMPTY
  | S j =>
      match RootFS_DiffIDs image !! j with
      | Some d => Ret d
      | None => Panic IndexOutOfRange
      end
  end.
Proof.
  unfold layerAt, index. destruct k as [|j].
  - rewrite bool_decide_eq_true_2 by lia. reflexivity.
  - rewrite bool_decide_eq_false_2 by lia.
    rewrite bool_decide_eq_true_2 by lia.
    replace (Z.to_nat (Z.of_nat (S j) - 1)) with j by lia. reflexivity.
Qed.

Lemma layerAt_in_range image (k : nat) :
  (k ≤ length (RootFS_DiffIDs image))%nat →
  ∃ d, layerAt EMPTY image (Z.of_nat k - 1) = Ret d.
Proof.
  intros Hk. rewrite layerAt_count. destruct k as [|j]; [eauto|].
  destruct (lookup_lt_is_Some_2 (RootFS_DiffIDs image) j) as [d Hd]; [lia|].
  rewrite Hd. eauto.
Qed.

Lemma layerAt_past_end image (k : nat) :
  (length (RootFS_DiffIDs image) < k)%nat →
  layerAt EMPTY image (Z.of_nat k - 1) = Panic IndexOutOfRange.
Proof.
  intros Hk. rewrite layerAt_count. destruct k as [|j]; [lia|].
  rewrite lookup_ge_None_2 by lia. reflexivity.
Qed.

Lemma producedLayers_cons h history :
  producedLayers (h :: history) =
  ((if h_EmptyLayer h then 0 else 1) + producedLayers history)%nat.
Proof.
  unfold producedLayers. rewrite filter_cons.
  destruct (decide (h_EmptyLayer h = false)) as [Hlayer|Hnone].
  - rewrite Hlayer. reflexivity.
  - destruct (h_EmptyLayer h); [reflexivity|congruence].
Qed.

Lemma layerIndex_after (k : nat) (h : History) :
  (if negb (h_EmptyLayer h) then Z.of_nat k - 1 + 1 else Z.of_nat k - 1)
  = Z.of_nat (countAfter k h) - 1.
Proof. unfold countAfter. destruct (h_EmptyLayer h); simpl; lia. Qed.

Lemma makeHistoryWithSource_loop_cons image (k : nat) h history :
  makeHistoryWithSource_loop EMPTY image (Z.of_nat k - 1) (h :: history) =
  (src ← layerAt EMPTY image (Z.of_nat k - 1);
   res ← layerAt EMPTY image (Z.of_nat (countAfter k h) - 1);
   tl ← makeHistoryWithSource_loop EMPTY image (Z.of_nat (countAfter k h) - 1) history;
   Ret (mkHistoryWithSource src (h_CreatedBy h) res (h_Created h) :: tl)).
Proof. simpl. rewrite layerIndex_after. reflexivity. Qed.

Lemma chained_lookup steps : ∀ src,
  chained src steps →
  ∀ (i : nat) s s', steps !! i = Some s → steps !! S i = Some s' →
    sourceLayerID s' = resultingLayerID s.
Proof.
  induction steps as [|s0 tl IH]; intros src Hc i s s' Hi HS; [done|].
  destruct Hc as [_ Hc]. destruct i as [|i]; simpl in *.
  - injection Hi as ->. destruct tl as [|s1 tl]; [done|].
    simpl in HS. injection HS as ->. apply Hc.
  - eapply IH; eauto.
Qed.

(** On a history the layer list can serve, the loop returns one step per
    entry, chained from the layer at the entry index, each step ending on
    the layer that the entries up to it have counted. *)
Lemma makeHistoryWithSource_loop_ok image history : ∀ (k : nat),
  (k + producedLayers history ≤ length (RootFS_DiffIDs image))%nat →
  ∃ steps src,
    makeHistoryWithSource_loop EMPTY image (Z.of_nat k - 1) history = Ret steps
    ∧ layerAt EMPTY image (Z.of_nat k - 1) = Ret src
    ∧ chained src steps
    ∧ cmd <$> steps = h_CreatedBy <$> history
    ∧ createdAt <$> steps = h_Created <$> history
    ∧ ∀ (i : nat) s, steps !! i = Some s →
        layerAt EMPTY image
          (Z.of_nat (k + producedLayers (take (S i) history)) - 1)
        = Ret (resultingLayerID s).
Proof.
  induction history as [|h rest IH]; intros k Hk.
  - destruct (layerAt_in_range image k) as [src Hsrc]; [lia|].
    exists [], src. simpl. repeat split; try done.
  - rewrite producedLayers_cons in Hk.
    destruct (layerAt_in_range image k) as [src Hsrc]; [lia|].
    assert (Hk' : (countAfter k h + producedLayers rest
                   ≤ length (RootFS_DiffIDs image))%nat).
    { unfold countAfter. destruct (h_EmptyLayer h); lia. }
    destruct (IH _ Hk') as (tl & res & Htl & Hres & Hch & Hcmd & Hat & Hlay).
    exists (mkHistoryWithSource src (h_CreatedBy h) res (h_Created h) :: tl), src.
    rewrite makeHistoryWithSource_loop_cons, Hsrc, Hres, Htl.
    split; [reflexivity|]. split; [reflexivity|].
    split; [by split|].
    split; [by rewrite !fmap_cons, Hcmd|].
    split; [by rewrite !fmap_cons, Hat|].
    intros [|i] s Hs; simpl in Hs.
    + injection Hs as <-. simpl. rewrite take_0, producedLayers_cons.
      replace (k + ((if h_EmptyLayer h then 0 else 1) + producedLayers []))%nat
        with (countAfter k h); [done|].
      unfold countAfter, producedLayers. destruct (h_EmptyLayer h); simpl; lia.
    + rewrite <- (Hlay i s Hs). rewrite firstn_cons, producedLayers_cons.
      f_equal. f_equal. unfold countAfter. destruct (h_EmptyLayer h); lia.
Qed.

(** When the history counts more layers than the image lists, the loop
    runs into the end of [DiffIDs]. *)
Lemma makeHistoryWithSource_loop_panics image history : ∀ (k : nat),
  (k ≤ length (RootFS_DiffIDs image))%nat →
  (length (RootFS_DiffIDs image) < k + producedLayers history)%nat →
  makeHistoryWithSource_loop EMPTY image (Z.of_nat k - 1) history
  = Panic IndexOutOfRange.
Proof.
  induction history as [|h rest IH]; intros k Hle Hgt.
  - unfold producedLayers in Hgt. simpl in Hgt. lia.
  - rewrite producedLayers_cons in Hgt.
    rewrite makeHistoryWithSource_loop_cons.
    destruct (layerAt_in_range image k Hle) as [src ->]. simpl.
    destruct (decide (countAfter k h ≤ length (RootFS_DiffIDs image))%nat) as [Hin|Hout].
    + destruct (layerAt_in_range image _ Hin) as [res ->]. simpl.
      rewrite IH; [done|done|].
      unfold countAfter. destruct (h_EmptyLayer h); lia.
    + rewrite layerAt_past_end by lia. done.
Qed.

(** C5. For the history [A (no layer); B (a layer)] over the layers [L1],
    [makeHistoryWithSource] returns the two steps (EMPTY, A, EMPTY) and
    (EMPTY, B, L1). In general, when the layer list is long enough for the
    history, it returns one step per history entry, in order, with the
    entry's command and time; the first step starts from the empty layer,
    every later step starts from the layer the step before it ended on,
    and step i ends on the layer counted by the entries 0..i. *)
Theorem makeHistoryWithSource_steps :
  (∀ (id parent : image_ID) (c : Config) (t tA tB : Time) (L1 : DiffID),
     makeHistoryWithSource EMPTY
       {| ID := id; Parent := parent; ContainerConfig := c; Created := t;
          History_ := [mkHistory tA "A" true; mkHistory tB "B" false];
          RootFS_DiffIDs := [L1] |}
     = Ret [mkHistoryWithSource EMPTY "A" EMPTY tA;
            mkHistoryWithSource EMPTY "B" L1 tB])
  ∧
  (∀ image,
     (producedLayers (History_ image) ≤ length (RootFS_DiffIDs image))%nat →
     ∃ steps,
       makeHistoryWithSource EMPTY image = Ret steps
       ∧ length steps = length (History_ image)
       ∧ (∀ (i : nat) h, History_ image !! i = Some h →
            ∃ s, steps !! i = Some s
                 ∧ cmd s = h_CreatedBy h ∧ createdAt s = h_Created h)
       ∧ (∀ s, steps !! 0%nat = Some s → sourceLayerID s = EMPTY)
       ∧ (∀ (i : nat) s s', steps !! i = Some s → steps !! S i = Some s' →
            sourceLayerID s' = resultingLayerID s)
       ∧ (∀ (i : nat) s, steps !! i = Some s →
            layerAt EMPTY image
              (Z.of_nat (producedLayers (take (S i) (History_ image))) - 1)
            = Ret (resultingLayerID s))).
Proof.
  split; [reflexivity|].
  intros image Hcount.
  destruct (makeHistoryWithSource_loop_ok image (History_ image) 0 Hcount)
    as (steps & src & Hrun & Hsrc & Hch & Hcmd & Hat & Hlay).
  simpl in Hrun, Hsrc. injection Hsrc as <-.
  exists steps. split; [exact Hrun|].
  assert (Hlen : length steps = length (History_ image)).
  { rewrite <- (length_fmap cmd), Hcmd. apply length_fmap. }
  split; [exact Hlen|]. split; [|split; [|split]].
  - intros i h Hi.
    destruct (lookup_lt_is_Some_2 steps i) as [s Hs].
    { rewrite Hlen. eapply lookup_lt_Some, Hi. }
    exists s. split; [exact Hs|]. split.
    + assert (H1 : (cmd <$> steps) !! i = Some (cmd s)) by by rewrite list_lookup_fmap, Hs.
      rewrite Hcmd, list_lookup_fmap, Hi in H1. by injection H1.
    + assert (H1 : (createdAt <$> steps) !! i = Some (createdAt s))
        by by rewrite list_lookup_fmap, Hs.
      rewrite Hat, list_lookup_fmap, Hi in H1. by injection H1.
  - intros s Hs. destruct steps as [|s0 tl]; [done|].
    injection Hs as <-. apply Hch.
  - eapply chained_lookup, Hch.
  - intros i s Hs. apply (Hlay i s Hs).
Qed.

(** C6, as the code has it. When the history counts more layer-producing
    entries than the image lists layers, [makeHistoryWithSource] returns
    no steps: the index into [DiffIDs] runs past its end and the Go
    runtime panics. No error value is returned. *)
Theorem makeHistoryWithSource_corrupt_panics image :
  (length (RootFS_DiffIDs image) < producedLayers (History_ image))%nat →
  makeHistoryWithSource EMPTY image = Panic IndexOutOfRange.
Proof.
  intros Hgt. apply (makeHistoryWithSource_loop_panics image _ 0%nat); lia.
Qed.

(** ** GetCachedImage *)

Implicit Types (daemon : Daemon Config) (config : Config)
  (siblings : list image_ID).

Lemma candidateAt_cons_S daemon config id siblings j img :
  candidateAt Compare daemon config (id :: siblings) (S j) img
  ↔ candidateAt Compare daemon config siblings j img.
Proof. reflexivity. Qed.

Lemma candidateAt_cons_O daemon config id siblings img :
  candidateAt Compare daemon config (id :: siblings) 0 img
  ↔ imageStore_Get daemon id = inr img ∧ Compare (ContainerConfig img) config = true.
Proof.
  unfold candidateAt. simpl. split.
  - intros (id' & [= <-] & Hget & Hcmp). done.
  - intros [Hget Hcmp]. eauto.
Qed.

Lemma getMatch_loop_post daemon config siblings : ∀ acc,
  (∀ id, id ∈ siblings → ∃ img, imageStore_Get daemon id = inr img) →
  ∃ r, getMatch_loop Compare daemon config siblings acc = Ret r
       ∧ getMatch_post Compare daemon config siblings acc r.
Proof.
  induction siblings as [|id rest IH]; intros acc Hstore.
  - exists acc. split; [reflexivity|]. split.
    + intros j img (id & Hj & _). done.
    + intros a ->. exists a. split; [done|lia].
    + by left.
  - destruct (Hstore id) as [img Hget]; [set_solver|].
    assert (Hrest : ∀ id', id' ∈ rest → ∃ img', imageStore_Get daemon id' = inr img')
      by (intros; apply Hstore; set_solver).
    simpl. rewrite Hget.
    destruct (Compare (ContainerConfig img) config) eqn:Hcmp.
    + destruct acc as [a|].
      * case_bool_decide as Hnewer.
        -- (* a newer match replaces the held one *)
           destruct (IH (Some img) Hrest) as (r & Hrun & [Hb Hk Ho]).
           exists r. split; [exact Hrun|].
           destruct (Hk img eq_refl) as (m & -> & Hm). split.
           ++ intros [|j] img' Hc.
              ** apply candidateAt_cons_O in Hc as [Hg _].
                 rewrite Hget in Hg. injection Hg as <-. eauto.
              ** apply candidateAt_cons_S in Hc. eauto.
           ++ intros a' [= <-]. exists m. split; [done|lia].
           ++ right. destruct Ho as [[= ->]|(k & m' & [= <-] & Hck & Hacc & Hfirst)].
              ** exists 0%nat, img. split; [done|]. split.
                 { apply candidateAt_cons_O. done. }
                 split; [intros a' [= <-]; done|]. intros; lia.
              ** exists (S k), m. split; [done|]. split; [done|].
                 specialize (Hacc img eq_refl). split.
                 { intros a' [= <-]. lia. }
                 intros [|j] img' Hc Hlt.
                 { apply candidateAt_cons_O in Hc as [Hg _].
                   rewrite Hget in Hg. injection Hg as <-. done. }
                 apply candidateAt_cons_S in Hc. apply (Hfirst j); [done|lia].
        -- (* the held match is at least as new: it stays *)
           destruct (IH (Some a) Hrest) as (r & Hrun & [Hb Hk Ho]).
           exists r. split; [exact Hrun|].
           destruct (Hk a eq_refl) as (m & -> & Hm). split.
           ++ intros [|j] img' Hc.
              ** apply candidateAt_cons_O in Hc as [Hg _].
                 rewrite Hget in Hg. injection Hg as <-.
                 exists m. split; [done|lia].
              ** apply candidateAt_cons_S in Hc. eauto.
           ++ intros a' [= <-]. eauto.
           ++ destruct Ho as [Ho|(k & m' & [= <-] & Hck & Hacc & Hfirst)]; [by left|].
              right. exists (S k), m. split; [done|]. split; [done|].
              split; [done|]. specialize (Hacc a eq_refl).
              intros [|j] img' Hc Hlt.
              { apply candidateAt_cons_O in Hc as [Hg _].
                rewrite Hget in Hg. injection Hg as <-. lia. }
              apply candidateAt_cons_S in Hc. apply (Hfirst j); [done|lia].
      * (* nothing held yet: the first match is taken *)
        destruct (IH (Some img) Hrest) as (r & Hrun & [Hb Hk Ho]).
        exists r. split; [exact Hrun|].
        destruct (Hk img eq_refl) as (m & -> & Hm). split.
        -- intros [|j] img' Hc.
           ++ apply candidateAt_cons_O in Hc as [Hg _].
              rewrite Hget in Hg. injection Hg as <-. eauto.
           ++ apply candidateAt_cons_S in Hc. eauto.
        -- done.
        -- right. destruct Ho as [[= ->]|(k & m' & [= <-] & Hck & Hacc & Hfirst)].
           ++ exists 0%nat, img. split; [done|]. split.
              { apply candidateAt_cons_O. done. }
              split; [done|]. intros; lia.
           ++ exists (S k), m. split; [done|]. split; [done|].
              specialize (Hacc img eq_refl). split; [done|].
              intros [|j] img' Hc Hlt.
              { apply candidateAt_cons_O in Hc as [Hg _].
                rewrite Hget in Hg. injection Hg as <-. done. }
              apply candidateAt_cons_S in Hc. apply (Hfirst j); [done|lia].
    + (* a different configuration: skipped *)
      destruct (IH acc Hrest) as (r & Hrun & [Hb Hk Ho]).
      exists r. split; [exact Hrun|]. split.
      * intros [|j] img' Hc.
        -- apply candidateAt_cons_O in Hc as [Hg Hc].
           rewrite Hget in Hg. injection Hg as <-. congruence.
        -- apply candidateAt_cons_S in Hc. eauto.
      * done.
      * destruct Ho as [Ho|(k & m & -> & Hck & Hacc & Hfirst)]; [by left|].
        right. exists (S k), m. split; [done|]. split; [done|]. split; [done|].
        intros [|j] img' Hc Hlt.
        { apply candidateAt_cons_O in Hc as [Hg Hc].
          rewrite Hget in Hg. injection Hg as <-. congruence. }
        apply candidateAt_cons_S in Hc. apply (Hfirst j); [done|lia].
Qed.

(** C7, as the code has it. Let the siblings be the children the store
    lists for the parent (for the empty parent: the parentless images of
    the store's map, in the order the map is ranged over), and let every
    one of them be found in the store. Then [GetCachedImage] returns
    without error. It returns nil exactly when no sibling has a
    configuration equal to the query's. Otherwise it returns a sibling
    with an equal configuration whose creation time no other such sibling
    exceeds, and among those of that greatest time, the one the
    enumeration lists first. *)
Theorem GetCachedImage_newest_first_listed daemon (imgID : image_ID) config :
  (∀ id, id ∈ siblingsOf daemon imgID →
     ∃ img, imageStore_Get daemon id = inr img) →
  ∃ r, GetCachedImage Compare daemon imgID config = Ret r ∧
    match r with
    | None =>
        ∀ j img, ¬ candidateAt Compare daemon config (siblingsOf daemon imgID) j img
    | Some m =>
        ∃ k, candidateAt Compare daemon config (siblingsOf daemon imgID) k m
          ∧ ∀ j img, candidateAt Compare daemon config (siblingsOf daemon imgID) j img →
              Created img <= Created m
              ∧ (Created img = Created m → (k ≤ j)%nat)
    end.
Proof.
  intros Hstore. unfold GetCachedImage, getMatch.
  destruct (getMatch_loop_post daemon config _ None Hstore) as (r & Hrun & [Hb Hk Ho]).
  exists r. split; [exact Hrun|]. destruct r as [m|].
  - destruct Ho as [|(k & m' & [= <-] & Hck & _ & Hfirst)]; [done|].
    exists k. split; [done|]. intros j img Hc.
    destruct (Hb j img Hc) as (m' & [= <-] & Hle). split; [done|].
    intros Heq. destruct (decide (j < k)%nat) as [Hlt|]; [|lia].
    specialize (Hfirst j img Hc Hlt). lia.
  - intros j img Hc. destruct (Hb j img Hc) as (m & ? & _). done.
Qed.

(** X1. A parent the store lists no children for: nil, and no error. *)
Theorem GetCachedImage_childless daemon (imgID : image_ID) config :
  imgID ≠ "" →
  imageStore_Children daemon imgID = [] →
  GetCachedImage Compare daemon imgID config = Ret None.
Proof.
  intros Hparent Hnone. unfold GetCachedImage, siblingsOf.
  rewrite bool_decide_eq_false_2 by done. rewrite Hnone. reflexivity.
Qed.

(** ** GetImage *)

(** [GetImageID] and [GetImage] return or fail: nothing in them indexes
    a slice or writes a map. *)
Lemma GetImageID_returns_or_fails daemon (refOrID : string) :
  (∃ id, GetImageID daemon refOrID = Ret id)
  ∨ (∃ e, GetImageID daemon refOrID = Fail e).
Proof.
  unfold GetImageID.
  repeat (case_match; simplify_eq/=; eauto).
Qed.

Lemma GetImage_returns_or_fails daemon (refOrID : string) :
  (∃ img, GetImage daemon refOrID = Ret img)
  ∨ (∃ e, GetImage daemon refOrID = Fail e).
Proof.
  unfold GetImage.
  destruct (GetImageID_returns_or_fails daemon refOrID) as [[id ->]|[e ->]]; simpl.
  - destruct (imageStore_Get daemon id); eauto.
  - eauto.
Qed.

(** ** MakeImageCacheForBuild *)

(** A name that does not resolve is skipped. *)
Lemma MakeImageCacheForBuild_loop_skip daemon cache (name : string) rest e :
  GetImage daemon name = Fail e →
  MakeImageCacheForBuild_loop EMPTY daemon cache (name :: rest)
  = MakeImageCacheForBuild_loop EMPTY daemon cache rest.
Proof. intros Hget. simpl. rewrite Hget. reflexivity. Qed.

(** A name that resolves is recorded at once, and the map it is recorded
    in was never made. *)
Lemma MakeImageCacheForBuild_loop_nil_map daemon cache (name : string) rest img :
  cacheFromImages cache = None →
  GetImage daemon name = Ret img →
  MakeImageCacheForBuild_loop EMPTY daemon cache (name :: rest)
  = Panic AssignNilMap.
Proof. intros Hnil Hget. simpl. rewrite Hget, Hnil. reflexivity. Qed.

Lemma MakeImageCacheForBuild_loop_panics daemon cache (name : string)
    (img : Image Config) : ∀ (cacheFrom : list string),
  cacheFromImages cache = None →
  name ∈ cacheFrom →
  GetImage daemon name = Ret img →
  MakeImageCacheForBuild_loop EMPTY daemon cache cacheFrom = Panic AssignNilMap.
Proof.
  induction cacheFrom as [|n rest IH]; intros Hnil Hin Hget; [set_solver|].
  destruct (GetImage_returns_or_fails daemon n) as [[img' Hn]|[e Hn]].
  - by eapply MakeImageCacheForBuild_loop_nil_map.
  - rewrite (MakeImageCacheForBuild_loop_skip _ _ _ _ _ Hn). apply IH; [done| |done].
    apply elem_of_cons in Hin as [->|Hin]; [congruence|done].
Qed.

(** C10, on the code. [MakeImageCacheForBuild] builds its cache with the
    [daemon] field only, so both maps are nil; the first cache-from name
    that resolves to an image is assigned into the nil map
    [cacheFromImages], and the function panics instead of returning. *)
Theorem MakeImageCacheForBuild_panics_on_resolved_name
    daemon (cacheFrom : list string) (name : string) (img : Image Config) :
  name ∈ cacheFrom →
  GetImage daemon name = Ret img →
  MakeImageCacheForBuild EMPTY daemon cacheFrom = Panic AssignNilMap.
Proof.
  intros Hin Hget. unfold MakeImageCacheForBuild.
  by eapply MakeImageCacheForBuild_loop_panics.
Qed.

(** ** GetCachedImageOnBuild *)

(** C4. When [GetCachedImage] finds an image for the parent and the
    configuration, [GetCachedImageOnBuild] returns that image's ID, and it
    does so whatever the cache-from maps of the cache hold: they are not
    read on this path, and no plugin takes part. *)
Theorem GetCachedImageOnBuild_direct_hit_first
    (cache : daemonImageCacheForBuild Config) (imgID : string) (cfg : Config)
    (img : Image Config) :
  GetCachedImage Compare (daemon_ cache) imgID cfg = Ret (Some img) →
  GetCachedImageOnBuild Compare EMPTY cache imgID cfg = Ret (ID img)
  ∧ ∀ images histories,
      GetCachedImageOnBuild Compare EMPTY
        {| cacheFromImages := images;
           cacheFromImageHistories := histories;
           daemon_ := daemon_ cache |} imgID cfg
      = Ret (ID img).
Proof.
  intros Hhit. unfold GetCachedImageOnBuild. simpl. rewrite Hhit. done.
Qed.

(** C8, on the code. After a miss of [GetCachedImage],
    [GetCachedImageOnBuild] has no path that returns a value: it returns
    the error of the parent lookup, panics while deriving the parent's
    history, or reaches the end of its body, where no return statement is
    written. It never returns the empty ID with a nil error, and it calls
    no plugin. *)
Theorem GetCachedImageOnBuild_returns_nothing_after_miss
    (cache : daemonImageCacheForBuild Config) (imgID : string) (cfg : Config) :
  GetCachedImage Compare (daemon_ cache) imgID cfg = Ret None →
  ∀ id, GetCachedImageOnBuild Compare EMPTY cache imgID cfg ≠ Ret id.
Proof.
  intros Hmiss id. unfold GetCachedImageOnBuild. rewrite Hmiss. simpl.
  destruct (GetImage (daemon_ cache) imgID) as [parentImage|e|p|]; simpl; try done.
  destruct (makeHistoryWithSource EMPTY parentImage) as [hs|e|p|]; simpl; try done.
  by destruct (GetCachedImageOnBuild_loop _ _ _).
Qed.

(** ** cacheSearchCoroutine *)

Implicit Types (data : cacheCoroutineData Config)
  (req : nextCachedLayerRequest) (prev : list DiffID).

(** The comparison loop on two equal slices: every trip finds equal
    elements, until the trip at index [len] reads past the end. *)
Lemma compare_loop_equal prev : ∀ (trips i : nat),
  (i + trips = S (length prev))%nat → (0 < trips)%nat →
  ∃ reads, compare_loop trips i prev prev = (reads, Panic IndexOutOfRange)
           ∧ ReadPrev (length prev) ∈ reads.
Proof.
  induction trips as [|trips IH]; intros i Hsum Hpos; [lia|].
  simpl. destruct (prev !! i) as [a|] eqn:Hi.
  - rewrite bool_decide_eq_false_2 by (intros Hne; by apply Hne).
    apply lookup_lt_Some in Hi.
    destruct (IH (S i)) as (reads & -> & Hin); [lia|lia|].
    eexists. split; [reflexivity|]. set_solver.
  - apply lookup_ge_None in Hi. assert (i = length prev) as -> by lia.
    eexists. split; [reflexivity|]. set_solver.
Qed.

(** The loop never leaves with [matchesLayerIDs] still true: its last
    trip always indexes past the end. *)
Lemma compare_loop_not_true prev prevLayerIDs : ∀ (trips i : nat),
  (i + trips = S (length prev))%nat → (0 < trips)%nat →
  (compare_loop trips i prev prevLayerIDs).2 = Ret false
  ∨ (compare_loop trips i prev prevLayerIDs).2 = Panic IndexOutOfRange.
Proof.
  induction trips as [|trips IH]; intros i Hsum Hpos; [lia|].
  simpl. destruct (prev !! i) as [a|] eqn:Hi; [|by right].
  destruct (prevLayerIDs !! i) as [b|]; [|by right].
  case_bool_decide; [by left|].
  apply lookup_lt_Some in Hi.
  destruct (compare_loop trips (S i) prev prevLayerIDs) as [reads m] eqn:Hrec.
  simpl. specialize (IH (S i)). rewrite Hrec in IH. apply IH; lia.
Qed.

Lemma compareLayers_not_true prev prevLayerIDs :
  (compareLayers prev prevLayerIDs).2 = Ret false
  ∨ (compareLayers prev prevLayerIDs).2 = Panic IndexOutOfRange.
Proof.
  unfold compareLayers. case_bool_decide; [|by left].
  apply compare_loop_not_true; lia.
Qed.

(** C9, on the code. When the stored prefix and the request's layers are
    the same list of length n, the loop runs while [i <= n]: after n equal
    pairs it reads [prevStepCachedLayers[n]], one past the last element,
    and the comparison ends in an index-out-of-range panic. For n = 0 the
    very first read is out of range. *)
Theorem compareLayers_reads_index_len prev :
  ∃ reads, compareLayers prev prev = (reads, Panic IndexOutOfRange)
           ∧ ReadPrev (length prev) ∈ reads.
Proof.
  unfold compareLayers. rewrite bool_decide_eq_true_2 by done.
  apply compare_loop_equal; lia.
Qed.

Lemma respond_equal_prefix data h prev (c : string) :
  respond data h prev {| nextCmd := c; prevLayerIDs := prev |}
  = Panic IndexOutOfRange.
Proof.
  unfold respond. simpl.
  destruct (compareLayers_reads_index_len prev) as (reads & -> & _). done.
Qed.

(** No response the coroutine sends is a match. *)
Lemma respond_not_matched data h prev req res :
  respond data h prev req = Ret res → matched res = false.
Proof.
  unfold respond.
  destruct (compareLayers_not_true prev (prevLayerIDs req)) as [-> | ->]; simpl; [|done].
  rewrite andb_false_r. by intros [= <-].
Qed.

(** C3, on the code. A request that names the step's command and carries
    exactly the coroutine's prefix is not answered with a match: the
    comparison indexes one past the end of the prefix and the goroutine
    panics. And no request at all is answered with a match. *)
Theorem respond_panics_on_matching_request data (h : historyWithSourceT) prev :
  respond data h prev {| nextCmd := cmd h; prevLayerIDs := prev |}
  = Panic IndexOutOfRange
  ∧ ∀ req, ¬ ∃ res, respond data h prev req = Ret res ∧ matched res = true.
Proof.
  split; [apply respond_equal_prefix|].
  intros req (res & Hres & Hmatched).
  rewrite (respond_not_matched _ _ _ _ _ Hres) in Hmatched. discriminate.
Qed.

(** The prefix is re-sliced to its own length, so it stays empty. *)
Lemma updatePrev_empty data h : updatePrev EMPTY data h [] = Ret [].
Proof.
  unfold updatePrev, slice_to. case_bool_decide; [|done].
  rewrite bool_decide_eq_true_2 by (simpl; lia). reflexivity.
Qed.

(** A request with a non-empty layer list differs in length from the
    empty prefix: it is answered with the empty response. *)
Lemma respond_length_mismatch data h req :
  prevLayerIDs req ≠ [] →
  respond data h [] req
  = Ret {| nextLayerID := ""; res_createdAt := zeroTime; cachedFrom := "" |}.
Proof.
  intros Hne. unfold respond, compareLayers.
  destruct (prevLayerIDs req) as [|l ls]; [done|].
  rewrite (bool_decide_eq_false_2 (length [] = length (l :: ls))) by done.
  cbn [snd mbind result_bind]. by rewrite andb_false_r.
Qed.

(** The re-slicing keeps the length of the prefix: nothing is appended
    to it after a step. *)
Lemma updatePrev_length data h prev prev' :
  updatePrev EMPTY data h prev = Ret prev' → length prev' = length prev.
Proof.
  unfold updatePrev, slice_to. case_bool_decide; [|by intros [= <-]].
  case_bool_decide; [|done]. intros [= <-]. rewrite length_take. lia.
Qed.

(** Nothing the coroutine sends is a match, whatever it is asked. *)
Lemma cacheSearchCoroutine_loop_never_matches data (hs : list historyWithSourceT) :
  ∀ prev reqs res,
    res ∈ (cacheSearchCoroutine_loop EMPTY data hs prev reqs).1 →
    matched res = false.
Proof.
  induction hs as [|h rest IH]; intros prev reqs res; simpl; [set_solver|].
  destruct (updatePrev EMPTY data h prev) as [prev'|e|p|]; simpl; try set_solver.
  destruct reqs as [|req reqs]; simpl; [set_solver|].
  destruct (respond data h prev' req) as [r|e|p|] eqn:Hr; simpl; try set_solver.
  specialize (IH prev' reqs res).
  destruct (cacheSearchCoroutine_loop EMPTY data rest prev' reqs) as [sent ending].
  simpl in *. intros [->|Hin]%elem_of_cons; [|by apply IH].
  by eapply respond_not_matched.
Qed.

(** X19. Whatever image the coroutine serves and whatever requests it
    receives, no response it sends is a match: every response sent has an
    empty [nextLayerID]. *)
Lemma cacheSearchCoroutine_never_matches data reqs res :
  res ∈ (cacheSearchCoroutine EMPTY data reqs).1 → matched res = false.
Proof.
  unfold cacheSearchCoroutine.
  destruct (makeHistoryWithSource EMPTY (cacheFromImage data)) as [hs|e|p|];
    simpl; try set_solver.
  apply cacheSearchCoroutine_loop_never_matches.
Qed.

(** C1, on the code. Let the image's history derive to the steps
    [h :: hs]. The first request of a replay of the image's own history
    names [h]'s command and carries no preceding layers. The coroutine
    sends no response to it: the comparison of the two empty slices reads
    index 0 and the goroutine panics. *)
Theorem cacheSearchCoroutine_own_history_panics data h hs :
  makeHistoryWithSource EMPTY (cacheFromImage data) = Ret (h :: hs) →
  ∀ reqs,
    cacheSearchCoroutine EMPTY data
      ({| nextCmd := cmd h; prevLayerIDs := [] |} :: reqs)
    = ([], Panic IndexOutOfRange).
Proof.
  intros Hsteps reqs. unfold cacheSearchCoroutine. rewrite Hsteps. simpl.
  rewrite updatePrev_empty, respond_equal_prefix. reflexivity.
Qed.

(** C2, on the code. Let the history derive to the steps
    [h1 :: h2 :: hs]. A first request with a non-empty layer list
    mismatches and is answered with the empty response. The loop then goes
    on to [h2]: the coroutine is not closed, and a second request naming
    [h2]'s command with the coroutine's (empty) prefix is compared with
    [h2]. It is not answered with a miss: the comparison panics. *)
Theorem cacheSearchCoroutine_goes_on_after_mismatch data h1 h2 hs :
  makeHistoryWithSource EMPTY (cacheFromImage data) = Ret (h1 :: h2 :: hs) →
  ∀ (c : string) (l : DiffID) (ls : list DiffID) reqs,
    cacheSearchCoroutine EMPTY data
      ({| nextCmd := c; prevLayerIDs := l :: ls |}
       :: {| nextCmd := cmd h2; prevLayerIDs := [] |} :: reqs)
    = ([{| nextLayerID := ""; res_createdAt := zeroTime; cachedFrom := "" |}],
       Panic IndexOutOfRange).
Proof.
  intros Hsteps c l ls reqs. unfold cacheSearchCoroutine. rewrite Hsteps.
  simpl. rewrite updatePrev_empty, respond_length_mismatch by done.
  rewrite updatePrev_empty, respond_equal_prefix. reflexivity.
Qed.

(** * Further properties *)

(** ** makeHistoryWithSource, step by step *)

Lemma makeHistoryWithSource_loop_shape image history : ∀ (k : nat) steps,
  makeHistoryWithSource_loop EMPTY image (Z.of_nat k - 1) history = Ret steps →
  ∀ (i : nat) h s, history !! i = Some h → steps !! i = Some s →
    (h_EmptyLayer h = true → resultingLayerID s = sourceLayerID s)
    ∧ (h_EmptyLayer h = false →
         RootFS_DiffIDs image !! (k + producedLayers (take i history))%nat
         = Some (resultingLayerID s)).
Proof.
  induction history as [|h0 rest IH]; intros k steps Hrun i h s Hh Hs; [done|].
  rewrite makeHistoryWithSource_loop_cons in Hrun.
  destruct (layerAt EMPTY image (Z.of_nat k - 1)) as [src| | |] eqn:Hsrc;
    simpl in Hrun; try done.
  destruct (layerAt EMPTY image (Z.of_nat (countAfter k h0) - 1))
    as [res| | |] eqn:Hres; simpl in Hrun; try done.
  destruct (makeHistoryWithSource_loop EMPTY image _ rest) as [tl| | |] eqn:Htl;
    simpl in Hrun; try done.
  injection Hrun as <-. destruct i as [|i]; simpl in Hh, Hs.
  - injection Hh as <-. injection Hs as <-. simpl. split; intros Hlayer.
    + unfold countAfter in Hres. rewrite Hlayer in Hres. congruence.
    + unfold countAfter in Hres. rewrite Hlayer in Hres.
      rewrite layerAt_count in Hres.
      replace (k + producedLayers [])%nat with k by (unfold producedLayers; simpl; lia).
      destruct (RootFS_DiffIDs image !! k); congruence.
  - destruct (IH _ _ Htl i h s Hh Hs) as [Hsame Hnew]. split; [done|].
    intros Hlayer. rewrite <- (Hnew Hlayer). f_equal.
    rewrite firstn_cons, producedLayers_cons.
    unfold countAfter. destruct (h_EmptyLayer h0); lia.
Qed.

(** X2. In the steps [makeHistoryWithSource] returns, the step of a
    history entry marked [EmptyLayer] ends on the layer it started from,
    and the step of any other entry ends on the layer of [DiffIDs] whose
    index is the number of layer-producing entries before it. *)
Theorem makeHistoryWithSource_step_layers image steps :
  makeHistoryWithSource EMPTY image = Ret steps →
  ∀ (i : nat) h s, History_ image !! i = Some h → steps !! i = Some s →
    (h_EmptyLayer h = true → resultingLayerID s = sourceLayerID s)
    ∧ (h_EmptyLayer h = false →
         RootFS_DiffIDs image !! producedLayers (take i (History_ image))
         = Some (resultingLayerID s)).
Proof.
  intros Hrun i h s Hh Hs.
  apply (makeHistoryWithSource_loop_shape image _ 0 steps Hrun i h s Hh Hs).
Qed.

(** X3. When the history counts exactly as many layer-producing entries
    as the image lists layers, [makeHistoryWithSource] returns, and its
    last step ends on the last layer of [DiffIDs] (on the empty layer
    when the image has no layer at all). *)
Theorem makeHistoryWithSource_ends_on_top_layer image :
  producedLayers (History_ image) = length (RootFS_DiffIDs image) →
  ∃ steps, makeHistoryWithSource EMPTY image = Ret steps
    ∧ ∀ s, last steps = Some s →
        resultingLayerID s = default EMPTY (last (RootFS_DiffIDs image)).
Proof.
  intros Hcount.
  destruct (makeHistoryWithSource_loop_ok image (History_ image) 0)
    as (steps & src & Hrun & _ & _ & Hcmd & _ & Hlay); [simpl; lia|].
  exists steps. split; [exact Hrun|]. intros s Hlast.
  assert (Hlen : length steps = length (History_ image)).
  { rewrite <- (length_fmap cmd), Hcmd. apply length_fmap. }
  rewrite last_lookup in Hlast.
  specialize (Hlay _ _ Hlast). simpl in Hlay.
  assert (Hpos : (0 < length steps)%nat) by (apply lookup_lt_Some in Hlast; lia).
  rewrite take_ge in Hlay by lia.
  rewrite Hcount, layerAt_count in Hlay. rewrite last_lookup.
  destruct (length (RootFS_DiffIDs image)) as [|j] eqn:Hn; simpl.
  - rewrite lookup_ge_None_2 by lia. simpl. congruence.
  - destruct (RootFS_DiffIDs image !! j); simpl; congruence.
Qed.

(** ** The comparison of the layer lists *)

(** Two lists of one length that differ from index [i] on: the loop
    finds the difference before it reaches the end. *)
Lemma compare_loop_differ prev prevLayerIDs : ∀ (trips i : nat),
  length prev = length prevLayerIDs →
  (i + trips = S (length prev))%nat → (0 < trips)%nat →
  drop i prev ≠ drop i prevLayerIDs →
  (compare_loop trips i prev prevLayerIDs).2 = Ret false
  ∧ Forall (λ r, (read_index r < length prev)%nat)
      (compare_loop trips i prev prevLayerIDs).1.
Proof.
  induction trips as [|trips IH]; intros i Hlen Hsum Hpos Hne; [lia|].
  simpl. destruct (prev !! i) as [a|] eqn:Ha.
  - pose proof (lookup_lt_Some _ _ _ Ha) as Hi.
    destruct (lookup_lt_is_Some_2 prevLayerIDs i) as [b Hb]; [lia|].
    rewrite Hb. case_bool_decide as Hab.
    + split; [done|]. repeat constructor; simpl; lia.
    + assert (a = b) as -> by (destruct (decide (a = b)); [done|by destruct Hab]).
      rewrite (drop_S _ _ _ Ha), (drop_S _ _ _ Hb) in Hne.
      destruct (IH (S i)) as [Hres Hreads]; [done|lia|lia|congruence|].
      destruct (compare_loop trips (S i) prev prevLayerIDs) as [reads m].
      simpl in *. split; [done|]. repeat constructor; simpl; try lia. done.
  - apply lookup_ge_None in Ha.
    rewrite !drop_ge in Hne by lia. done.
Qed.

(** X4. The comparison never reports that the layers match. It reports
    a mismatch when the two lists differ, in length or in an element, and
    it panics with an index out of range exactly when they are equal. *)
Theorem compareLayers_outcome prev (prevLayerIDs : list DiffID) :
  (compareLayers prev prevLayerIDs).2 =
  if bool_decide (prev = prevLayerIDs) then Panic IndexOutOfRange else Ret false.
Proof.
  case_bool_decide as Heq.
  - subst. unfold compareLayers. rewrite bool_decide_eq_true_2 by done.
    destruct (compare_loop_equal prevLayerIDs (S (length prevLayerIDs)) 0)
      as (reads & -> & _); [lia|lia|done].
  - unfold compareLayers. case_bool_decide as Hlen; [|done].
    apply compare_loop_differ; [done|lia|lia|]. by rewrite !drop_0.
Qed.

(** X5. When the stored prefix and the request's layers differ, every
    element the comparison reads lies inside both lists: the read past the
    end happens only for equal lists. *)
Theorem compareLayers_reads_in_bounds prev (prevLayerIDs : list DiffID) :
  prev ≠ prevLayerIDs →
  Forall (λ r, (read_index r < length prev)%nat
               ∧ (read_index r < length prevLayerIDs)%nat)
    (compareLayers prev prevLayerIDs).1.
Proof.
  intros Hne. unfold compareLayers. case_bool_decide as Hlen; [|constructor].
  destruct (compare_loop_differ prev prevLayerIDs (S (length prev)) 0)
    as [_ Hreads]; [done|lia|lia|by rewrite !drop_0|].
  eapply Forall_impl; [exact Hreads|]. simpl. intros r Hr. lia.
Qed.

(** ** The coroutine on whole request sequences *)

Lemma respond_empty_prefix_nonempty_request data h req :
  prevLayerIDs req ≠ [] → respond data h [] req = Ret emptyResponse.
Proof. apply respond_length_mismatch. Qed.

Lemma cacheSearchCoroutine_loop_all_nonempty data (hs : list historyWithSourceT) :
  ∀ reqs,
    Forall (λ req, prevLayerIDs req ≠ []) reqs →
    cacheSearchCoroutine_loop EMPTY data hs [] reqs
    = (replicate (length hs `min` length reqs) emptyResponse, Ret tt).
Proof.
  induction hs as [|h rest IH]; intros reqs Hreqs; [reflexivity|].
  simpl. rewrite updatePrev_empty.
  destruct Hreqs as [|req reqs Hreq Hreqs]; [reflexivity|].
  rewrite respond_empty_prefix_nonempty_request by done.
  rewrite (IH reqs Hreqs). reflexivity.
Qed.

Lemma cacheSearchCoroutine_loop_empty_request data (c : string) post :
  ∀ pre (hs : list historyWithSourceT),
    Forall (λ req, prevLayerIDs req ≠ []) pre →
    (length pre < length hs)%nat →
    cacheSearchCoroutine_loop EMPTY data hs []
      (pre ++ {| nextCmd := c; prevLayerIDs := [] |} :: post)
    = (replicate (length pre) emptyResponse, Panic IndexOutOfRange).
Proof.
  induction pre as [|req pre IH]; intros hs Hpre Hlen;
    (destruct hs as [|h rest]; [simpl in Hlen; lia|]);
    simpl; rewrite updatePrev_empty.
  - by rewrite respond_equal_prefix.
  - apply Forall_cons in Hpre as [Hreq Hpre].
    rewrite respond_empty_prefix_nonempty_request by done.
    rewrite (IH rest Hpre) by (simpl in Hlen; lia). reflexivity.
Qed.

(** X6. As long as every request carries at least one preceding layer,
    the coroutine answers each of them with the empty response, one
    request per history step, and returns when the steps or the requests
    run out: it sends min(steps, requests) responses and does not panic. *)
Theorem cacheSearchCoroutine_nonempty_requests data (hs : list historyWithSourceT) reqs :
  makeHistoryWithSource EMPTY (cacheFromImage data) = Ret hs →
  Forall (λ req, prevLayerIDs req ≠ []) reqs →
  cacheSearchCoroutine EMPTY data reqs
  = (replicate (length hs `min` length reqs) emptyResponse, Ret tt).
Proof.
  intros Hsteps Hreqs. unfold cacheSearchCoroutine. rewrite Hsteps.
  by apply cacheSearchCoroutine_loop_all_nonempty.
Qed.

(** X7. The first request that carries no preceding layers, when it
    arrives while history steps are left, ends the goroutine with an
    index-out-of-range panic, whatever command it names; the requests
    before it were answered with the empty response, and nothing after it
    is answered. *)
Theorem cacheSearchCoroutine_panics_at_empty_request
    data (hs : list historyWithSourceT) pre (c : string) post :
  makeHistoryWithSource EMPTY (cacheFromImage data) = Ret hs →
  Forall (λ req, prevLayerIDs req ≠ []) pre →
  (length pre < length hs)%nat →
  cacheSearchCoroutine EMPTY data
    (pre ++ {| nextCmd := c; prevLayerIDs := [] |} :: post)
  = (replicate (length pre) emptyResponse, Panic IndexOutOfRange).
Proof.
  intros Hsteps Hpre Hlen. unfold cacheSearchCoroutine. rewrite Hsteps.
  by apply cacheSearchCoroutine_loop_empty_request.
Qed.

(** X8. A cache-from image whose history counts more layers than the
    image lists makes the coroutine panic before it receives a request. *)
Theorem cacheSearchCoroutine_corrupt_image data reqs :
  (length (RootFS_DiffIDs (cacheFromImage data))
   < producedLayers (History_ (cacheFromImage data)))%nat →
  cacheSearchCoroutine EMPTY data reqs = ([], Panic IndexOutOfRange).
Proof.
  intros Hcorrupt. unfold cacheSearchCoroutine, makeHistoryWithSource.
  rewrite (makeHistoryWithSource_loop_panics _ _ 0%nat) by (simpl; lia).
  reflexivity.
Qed.

(** ** MakeImageCacheForBuild without a resolvable name *)

Lemma MakeImageCacheForBuild_loop_none_resolved daemon cache :
  ∀ (cacheFrom : list string),
    Forall (λ name, ∃ e, GetImage daemon name = Fail e) cacheFrom →
    MakeImageCacheForBuild_loop EMPTY daemon cache cacheFrom = Ret cache.
Proof.
  induction cacheFrom as [|name rest IH]; intros Hnone; [reflexivity|].
  apply Forall_cons in Hnone as [[e Hname] Hrest].
  rewrite (MakeImageCacheForBuild_loop_skip _ _ _ _ _ Hname). by apply IH.
Qed.

(** X9. When no cache-from name resolves to an image (in particular for
    the empty list), [MakeImageCacheForBuild] returns a cache that holds
    the daemon and two nil maps: every name is skipped. *)
Theorem MakeImageCacheForBuild_none_resolved daemon (cacheFrom : list string) :
  Forall (λ name, ∃ e, GetImage daemon name = Fail e) cacheFrom →
  MakeImageCacheForBuild EMPTY daemon cacheFrom
  = Ret {| cacheFromImages := None;
           cacheFromImageHistories := None;
           daemon_ := daemon |}.
Proof. apply MakeImageCacheForBuild_loop_none_resolved. Qed.

(** ** GetCachedImageOnBuild, case by case *)

(** After a miss of [GetCachedImage] what is left of the function is the
    parent lookup and the derivation of the parent's history. *)
Lemma GetCachedImageOnBuild_after_miss
    (cache : daemonImageCacheForBuild Config) (imgID : string) (cfg : Config) :
  GetCachedImage Compare (daemon_ cache) imgID cfg = Ret None →
  GetCachedImageOnBuild Compare EMPTY cache imgID cfg
  = (parentImage ← GetImage (daemon_ cache) imgID;
     _ ← makeHistoryWithSource EMPTY parentImage;
     MissingReturn).
Proof.
  intros Hmiss. unfold GetCachedImageOnBuild. rewrite Hmiss. simpl.
  destruct (GetImage (daemon_ cache) imgID) as [parentImage|e|p|]; simpl; try done.
  destruct (makeHistoryWithSource EMPTY parentImage) as [hs|e|p|]; simpl; try done.
  by destruct (GetCachedImageOnBuild_loop _ _ _).
Qed.

(** X10. Whenever [GetCachedImageOnBuild] returns an ID, that ID is the
    ID of the image [GetCachedImage] found for the parent and the
    configuration: the function returns nothing that is not a direct
    hit. *)
Theorem GetCachedImageOnBuild_returns_only_direct_hits
    (cache : daemonImageCacheForBuild Config) (imgID : string) (cfg : Config)
    (id : string) :
  GetCachedImageOnBuild Compare EMPTY cache imgID cfg = Ret id →
  ∃ img, GetCachedImage Compare (daemon_ cache) imgID cfg = Ret (Some img)
         ∧ id = ID img.
Proof.
  intros Hret.
  destruct (GetCachedImage Compare (daemon_ cache) imgID cfg)
    as [[img|]|e|p|] eqn:Hdirect.
  - exists img. split; [done|].
    unfold GetCachedImageOnBuild in Hret. rewrite Hdirect in Hret.
    simpl in Hret. congruence.
  - rewrite (GetCachedImageOnBuild_after_miss _ _ _ Hdirect) in Hret.
    destruct (GetImage (daemon_ cache) imgID) as [parentImage|e|p|];
      simpl in Hret; try done.
    destruct (makeHistoryWithSource EMPTY parentImage); simpl in Hret; done.
  - unfold GetCachedImageOnBuild in Hret. by rewrite Hdirect in Hret.
  - unfold GetCachedImageOnBuild in Hret. by rewrite Hdirect in Hret.
  - unfold GetCachedImageOnBuild in Hret. by rewrite Hdirect in Hret.
Qed.

(** X11. The outcome of [GetCachedImageOnBuild] does not depend on the
    cache-from images or histories of the cache: two caches over the same
    daemon give the same outcome for every query. *)
Theorem GetCachedImageOnBuild_ignores_cacheFrom
    (cache cache' : daemonImageCacheForBuild Config) (imgID : string) (cfg : Config) :
  daemon_ cache = daemon_ cache' →
  GetCachedImageOnBuild Compare EMPTY cache imgID cfg
  = GetCachedImageOnBuild Compare EMPTY cache' imgID cfg.
Proof.
  intros Hdaemon. unfold GetCachedImageOnBuild. rewrite Hdaemon.
  destruct (GetCachedImage Compare (daemon_ cache') imgID cfg)
    as [[img|]|e|p|]; simpl; try done.
  destruct (GetImage (daemon_ cache') imgID) as [parentImage|e|p|]; simpl; try done.
  destruct (makeHistoryWithSource EMPTY parentImage) as [hs|e|p|]; simpl; try done.
  by do 2 destruct (GetCachedImageOnBuild_loop _ _ _).
Qed.

(** X12. After a miss of [GetCachedImage], a parent image that is found
    but whose history counts more layers than it lists makes
    [GetCachedImageOnBuild] panic with an index out of range. *)
Theorem GetCachedImageOnBuild_corrupt_parent_panics
    (cache : daemonImageCacheForBuild Config) (imgID : string) (cfg : Config)
    (parentImage : Image Config) :
  GetCachedImage Compare (daemon_ cache) imgID cfg = Ret None →
  GetImage (daemon_ cache) imgID = Ret parentImage →
  (length (RootFS_DiffIDs parentImage) < producedLayers (History_ parentImage))%nat →
  GetCachedImageOnBuild Compare EMPTY cache imgID cfg = Panic IndexOutOfRange.
Proof.
  intros Hmiss Hparent Hcorrupt.
  rewrite (GetCachedImageOnBuild_after_miss _ _ _ Hmiss), Hparent. simpl.
  unfold makeHistoryWithSource.
  rewrite (makeHistoryWithSource_loop_panics _ _ 0%nat) by (simpl; lia).
  reflexivity.
Qed.

(** X13. After a miss of [GetCachedImage], the error of a failed parent
    lookup is what [GetCachedImageOnBuild] returns; and when the parent is
    found and its layer list is long enough for its history, the end of
    the function body is reached without a return. *)
Theorem GetCachedImageOnBuild_after_miss_outcomes
    (cache : daemonImageCacheForBuild Config) (imgID : string) (cfg : Config) :
  GetCachedImage Compare (daemon_ cache) imgID cfg = Ret None →
  (∀ e, GetImage (daemon_ cache) imgID = Fail e →
        GetCachedImageOnBuild Compare EMPTY cache imgID cfg = Fail e)
  ∧ (∀ parentImage,
       GetImage (daemon_ cache) imgID = Ret parentImage →
       (producedLayers (History_ parentImage)
        ≤ length (RootFS_DiffIDs parentImage))%nat →
       GetCachedImageOnBuild Compare EMPTY cache imgID cfg = MissingReturn).
Proof.
  intros Hmiss. rewrite (GetCachedImageOnBuild_after_miss _ _ _ Hmiss).
  split.
  - intros e ->. reflexivity.
  - intros parentImage -> Hcount.
    destruct (makeHistoryWithSource_loop_ok parentImage (History_ parentImage) 0)
      as (steps & _ & Hrun & _); [simpl; lia|].
    change (makeHistoryWithSource EMPTY parentImage = Ret steps) in Hrun.
    simpl. rewrite Hrun. reflexivity.
Qed.

(** ** GetImageID *)

(** X14. Every error [GetImageID] returns is either the error of
    parsing the name or [ErrImageDoesNotExist] for the name it was asked;
    the errors of the image store, of the reference store and of the
    search are never passed on. *)
Theorem GetImageID_errors daemon (refOrID : string) (e : error) :
  GetImageID daemon refOrID = Fail e →
  ParseIDOrReference daemon refOrID = inl e
  ∨ e = ErrImageDoesNotExist refOrID.
Proof.
  unfold GetImageID. intros Hfail.
  repeat (case_match; simplify_eq/=; eauto).
Qed.

(** X15. For a name that parses as a reference, an ID [GetImageID]
    returns comes from one of three places: the reference store's entry
    for the reference; the search for the reference's tag, provided the
    found image has a reference of the same name; or the search for the
    whole name. *)
Theorem GetImageID_of_reference daemon (refOrID : string) (ref : Reference)
    (id : image_ID) :
  ParseIDOrReference daemon refOrID = inr ("", ref) →
  GetImageID daemon refOrID = Ret id →
  referenceStore_Get daemon ref = inr id
  ∨ (∃ tag namedRef,
       ref_Tag ref = Some tag
       ∧ imageStore_Search daemon tag = inr id
       ∧ namedRef ∈ referenceStore_References daemon id
       ∧ ref_Name namedRef = ref_Name ref)
  ∨ imageStore_Search daemon refOrID = inr id.
Proof.
  intros Hparse. unfold GetImageID. rewrite Hparse.
  rewrite bool_decide_eq_false_2 by (intros Hne; by apply Hne).
  destruct (referenceStore_Get daemon ref) as [e|id0] eqn:Hrefs;
    [|intros [= ->]; by left].
  assert (Hsearch :
    match imageStore_Search daemon refOrID with
    | inr id1 => Ret id1
    | inl _ => Fail (ErrImageDoesNotExist refOrID)
    end = Ret id → imageStore_Search daemon refOrID = inr id).
  { destruct (imageStore_Search daemon refOrID); [done|]. by intros [= ->]. }
  destruct (ref_Tag ref) as [tag|]; [|intros Hret; right; right; by apply Hsearch].
  destruct (imageStore_Search daemon tag) as [e'|id1] eqn:Htag;
    [intros Hret; right; right; by apply Hsearch|].
  destruct (existsb _ _) eqn:Hnamed; [|intros Hret; right; right; by apply Hsearch].
  intros [= ->]. right; left.
  apply existsb_exists in Hnamed as (namedRef & Hin & Hname).
  exists tag, namedRef. repeat split; [done| |].
  - by apply list_elem_of_In.
  - by apply bool_decide_eq_true_1 in Hname.
Qed.

(** ** GetCachedImage: errors, scratch, and the order of the siblings *)

Lemma getMatch_loop_missing daemon config (id : image_ID) (e : error) rest :
  imageStore_Get daemon id = inl e →
  ∀ found acc,
    Forall (λ id', ∃ img, imageStore_Get daemon id' = inr img) found →
    getMatch_loop Compare daemon config (found ++ id :: rest) acc
    = Fail (ErrUnableToFindImage id).
Proof.
  intros Hmissing. induction found as [|id' found IH]; intros acc Hfound; simpl.
  - by rewrite Hmissing.
  - apply Forall_cons in Hfound as [[img Himg] Hfound]. rewrite Himg.
    repeat case_match; by apply IH.
Qed.

(** X16. When the store does not hold one of the enumerated children,
    [GetCachedImage] fails with the error that names the first such
    child, whether or not a child with an equal configuration was seen
    before it. *)
Theorem GetCachedImage_missing_child daemon (imgID : image_ID) config
    (found : list image_ID) (id : image_ID) (e : error) (rest : list image_ID) :
  siblingsOf daemon imgID = (found ++ id :: rest)%list →
  Forall (λ id', ∃ img, imageStore_Get daemon id' = inr img) found →
  imageStore_Get daemon id = inl e →
  GetCachedImage Compare daemon imgID config = Fail (ErrUnableToFindImage id).
Proof.
  intros Hsiblings Hfound Hmissing. unfold GetCachedImage, getMatch.
  rewrite Hsiblings. by eapply getMatch_loop_missing.
Qed.

(** X17. For the empty parent of [FROM scratch], on a store whose
    lookup agrees with its map, [GetCachedImage] does not fail, and an
    image it returns is an image of the map that has no parent and whose
    configuration equals the query's. *)
Theorem GetCachedImage_scratch daemon config :
  (∀ id img, (id, img) ∈ imageStore_Map daemon →
             imageStore_Get daemon id = inr img) →
  ∃ r, GetCachedImage Compare daemon "" config = Ret r
    ∧ ∀ m, r = Some m →
        Parent m = ""
        ∧ Compare (ContainerConfig m) config = true
        ∧ ∃ id, (id, m) ∈ imageStore_Map daemon.
Proof.
  intros Hagree.
  assert (Hsib : ∀ id, id ∈ siblingsOf daemon "" →
            ∃ img, (id, img) ∈ imageStore_Map daemon ∧ Parent img = "").
  { intros id Hin. unfold siblingsOf in Hin.
    rewrite bool_decide_eq_true_2 in Hin by done.
    apply list_elem_of_fmap in Hin as ([id' img] & -> & Hin).
    apply list_elem_of_filter in Hin as [Hparent Hin]. eauto. }
  destruct (getMatch_loop_post daemon config (siblingsOf daemon "") None)
    as (r & Hrun & [_ _ Horigin]).
  { intros id Hin. destruct (Hsib id Hin) as (img & Hmap & _). eauto. }
  exists r. split; [exact Hrun|]. intros m ->.
  destruct Horigin as [|(k & m' & [= <-] & (id & Hk & Hget & Hcmp) & _)]; [done|].
  destruct (Hsib id) as (img & Hmap & Hparent).
  { eapply list_elem_of_lookup_2, Hk. }
  rewrite (Hagree _ _ Hmap) in Hget. injection Hget as ->. eauto.
Qed.

Lemma candidateAt_elem_of daemon config siblings (j : nat) img :
  candidateAt Compare daemon config siblings j img →
  ∃ id, id ∈ siblings ∧ imageStore_Get daemon id = inr img
        ∧ Compare (ContainerConfig img) config = true.
Proof.
  intros (id & Hj & Hget & Hcmp). exists id.
  split; [eapply list_elem_of_lookup_2, Hj|done].
Qed.

Lemma elem_of_candidateAt daemon config siblings (id : image_ID) img :
  id ∈ siblings → imageStore_Get daemon id = inr img →
  Compare (ContainerConfig img) config = true →
  ∃ j, candidateAt Compare daemon config siblings j img.
Proof.
  intros [j Hj]%list_elem_of_lookup_1 Hget Hcmp. exists j, id. done.
Qed.

(** X18. When every enumerated child is in the store and no two
    children with a configuration equal to the query's were created at
    the same time, the image [getMatch] returns does not depend on the
    order in which the children are enumerated. *)
Theorem getMatch_order_irrelevant_without_ties daemon config siblings siblings' :
  siblings ≡ₚ siblings' →
  (∀ id, id ∈ siblings → ∃ img, imageStore_Get daemon id = inr img) →
  (∀ id1 id2 img1 img2,
     id1 ∈ siblings → id2 ∈ siblings →
     imageStore_Get daemon id1 = inr img1 →
     imageStore_Get daemon id2 = inr img2 →
     Compare (ContainerConfig img1) config = true →
     Compare (ContainerConfig img2) config = true →
     Created img1 = Created img2 → img1 = img2) →
  getMatch Compare daemon config siblings
  = getMatch Compare daemon config siblings'.
Proof.
  intros Hperm Hstore Hdistinct. unfold getMatch.
  destruct (getMatch_loop_post daemon config siblings None Hstore)
    as (r & -> & [Hb _ Ho]).
  destruct (getMatch_loop_post daemon config siblings' None)
    as (r' & -> & [Hb' _ Ho']).
  { intros id Hin. apply Hstore. by rewrite Hperm. }
  f_equal.
  destruct Ho as [->|(k & m & -> & Hm & _)];
    destruct Ho' as [->|(k' & m' & -> & Hm' & _)]; try done.
  - apply candidateAt_elem_of in Hm' as (id & Hin & Hget & Hcmp).
    rewrite <- Hperm in Hin.
    destruct (elem_of_candidateAt _ config _ _ _ Hin Hget Hcmp) as [j Hj].
    destruct (Hb j m' Hj) as (? & ? & _). done.
  - apply candidateAt_elem_of in Hm as (id & Hin & Hget & Hcmp).
    rewrite Hperm in Hin.
    destruct (elem_of_candidateAt _ config _ _ _ Hin Hget Hcmp) as [j Hj].
    destruct (Hb' j m Hj) as (? & ? & _). done.
  - pose proof Hm as Hm0. pose proof Hm' as Hm0'.
    apply candidateAt_elem_of in Hm as (id & Hin & Hget & Hcmp).
    apply candidateAt_elem_of in Hm' as (id' & Hin' & Hget' & Hcmp').
    assert (Hin2 : id' ∈ siblings) by by rewrite Hperm.
    assert (Hin3 : id ∈ siblings') by by rewrite <- Hperm.
    destruct (elem_of_candidateAt _ config _ _ _ Hin2 Hget' Hcmp') as [j Hj].
    destruct (elem_of_candidateAt _ config _ _ _ Hin3 Hget Hcmp) as [j' Hj'].
    destruct (Hb j m' Hj) as (? & [= <-] & Hle).
    destruct (Hb' j' m Hj') as (? & [= <-] & Hle').
    f_equal. apply (Hdistinct id id'); try done. lia.
Qed.

End Properties.

(** * The properties on the test data *)

Section OnTestData.

Import Fixture.

(** C5 on [imageAB]: one layer-producing entry, one layer. *)
Lemma makeHistoryWithSource_steps_witness :
  ∃ steps, makeHistoryWithSource emptyTar imageAB = Ret steps
           ∧ length steps = length (History_ imageAB).
Proof.
  destruct (proj2 (makeHistoryWithSource_steps emptyTar) imageAB)
    as (steps & Hrun & Hlen & _).
  - vm_compute. lia.
  - exists steps. split; assumption.
Defined.

(** [corruptImage] counts one layer and lists none. *)
Lemma makeHistoryWithSource_corrupt_panics_witness :
  makeHistoryWithSource emptyTar corruptImage = Panic IndexOutOfRange.
Proof.
  apply (makeHistoryWithSource_corrupt_panics emptyTar corruptImage).
  vm_compute. lia.
Defined.

(** C6 as stated fails: on an image that violates the count invariant
    the function does not return an error value; it panics. *)
Lemma makeHistoryWithSource_corrupt_returns_no_error :
  (length (RootFS_DiffIDs corruptImage) < producedLayers (History_ corruptImage))%nat
  ∧ makeHistoryWithSource emptyTar corruptImage = Panic IndexOutOfRange
  ∧ ¬ ∃ e, makeHistoryWithSource emptyTar corruptImage = Fail e.
Proof.
  split; [vm_compute; lia|]. split; [reflexivity|].
  intros [e He]. vm_compute in He. discriminate He.
Qed.

(** C7 on [daemonP]: both children are in the store. *)
Lemma GetCachedImage_newest_first_listed_witness :
  ∃ r, GetCachedImage cmp daemonP "p" "cfg" = Ret r
       ∧ ∀ m, r = Some m → Created childOld <= Created m.
Proof.
  destruct (GetCachedImage_newest_first_listed cmp daemonP "p" "cfg")
    as (r & Hr & Hbest).
  - intros id Hin. vm_compute in Hin.
    apply list_elem_of_In in Hin. simpl in Hin.
    destruct Hin as [<-|[<-|[]]]; eexists; reflexivity.
  - exists r. split; [exact Hr|]. intros m ->.
    destruct Hbest as (k & _ & Hmax).
    apply (Hmax 1%nat childOld). exists "old". repeat split.
Defined.

(** Given two children of equal configuration built at t1 < t2, the
    later one is returned, in whichever order the store lists them. *)
Lemma GetCachedImage_returns_later_child :
  GetCachedImage cmp
    (daemonOf [("p", parentP); ("old", childOld); ("new", childNew)]) "p" "cfg"
  = Ret (Some childNew)
  ∧ GetCachedImage cmp
      (daemonOf [("p", parentP); ("new", childNew); ("old", childOld)]) "p" "cfg"
    = Ret (Some childNew).
Proof. split; reflexivity. Qed.

(** ["new"] is in the store and has no children. *)
Lemma GetCachedImage_childless_witness :
  GetCachedImage cmp daemonP "new" "cfg" = Ret None.
Proof.
  apply (GetCachedImage_childless cmp daemonP "new" "cfg"); [discriminate|reflexivity].
Defined.

(** C7 as stated fails: with two equal-configuration images of the same
    creation time, the image returned follows the order in which the
    store's map is ranged over. The two daemons hold the same images under
    the same IDs; the result is ["a"] for one order and ["b"] for the
    other, so it is neither fixed from run to run nor the least ID. *)
Lemma GetCachedImage_tie_follows_range_order :
  imageStore_Map daemonBA ≡ₚ imageStore_Map daemonAB
  ∧ (∀ id, imageStore_Get daemonBA id = imageStore_Get daemonAB id)
  ∧ Created twinA = Created twinB
  ∧ GetCachedImage cmp daemonAB "" "cfg" = Ret (Some twinA)
  ∧ GetCachedImage cmp daemonBA "" "cfg" = Ret (Some twinB)
  ∧ twinA ≠ twinB.
Proof.
  split; [apply perm_swap|]. split.
  - intros id. simpl.
    repeat case_bool_decide; simplify_eq; reflexivity.
  - repeat split; try reflexivity. discriminate.
Qed.

(** C10 on [daemonI]: the second name resolves. *)
Lemma MakeImageCacheForBuild_panics_on_resolved_name_witness :
  MakeImageCacheForBuild emptyTar daemonI ["missing"; "I"] = Panic AssignNilMap.
Proof.
  apply (MakeImageCacheForBuild_panics_on_resolved_name emptyTar daemonI
           ["missing"; "I"] "I" imageI).
  - set_solver.
  - reflexivity.
Defined.

(** No resolvable name: the loop records nothing and the function
    returns the cache with its two nil maps. *)
Lemma MakeImageCacheForBuild_nothing_resolved :
  MakeImageCacheForBuild emptyTar daemonI ["missing"] = Ret (cacheOf daemonI).
Proof. reflexivity. Qed.

(** C4 on [daemonP]: the newer child is a direct hit. *)
Lemma GetCachedImageOnBuild_direct_hit_first_witness :
  GetCachedImageOnBuild cmp emptyTar (cacheOf daemonP) "p" "cfg" = Ret "new".
Proof.
  apply (GetCachedImageOnBuild_direct_hit_first cmp emptyTar
           (cacheOf daemonP) "p" "cfg" childNew).
  reflexivity.
Defined.

(** C8 on [daemonP]: no child of ["p"] has the configuration ["other"]. *)
Lemma GetCachedImageOnBuild_returns_nothing_after_miss_witness :
  GetCachedImageOnBuild cmp emptyTar (cacheOf daemonP) "p" "other" ≠ Ret "".
Proof.
  apply (GetCachedImageOnBuild_returns_nothing_after_miss cmp emptyTar
           (cacheOf daemonP) "p" "other").
  reflexivity.
Defined.

(** After a direct miss on an existing parent the end of the body is
    reached; on the empty parent of [FROM scratch] the parent lookup fails
    and its error is returned. *)
Lemma GetCachedImageOnBuild_after_miss_evaluated :
  GetCachedImageOnBuild cmp emptyTar (cacheOf daemonP) "p" "other" = MissingReturn
  ∧ GetCachedImageOnBuild cmp emptyTar (cacheOf daemonP) "" "other"
    = Fail (ErrCollaborator "empty reference").
Proof. split; reflexivity. Qed.

(** C1 on [imageI]: the first request of the replay. *)
Lemma cacheSearchCoroutine_own_history_panics_witness :
  cacheSearchCoroutine emptyTar (mkData imageI "I")
    [{| nextCmd := "A"; prevLayerIDs := [] |};
     {| nextCmd := "B"; prevLayerIDs := ["L1"] |}]
  = ([], Panic IndexOutOfRange).
Proof.
  apply (cacheSearchCoroutine_own_history_panics emptyTar (mkData imageI "I")
           (mkHistoryWithSource emptyTar "A" "L1" 10)
           [mkHistoryWithSource "L1" "B" "L2" 20]).
  reflexivity.
Defined.

(** C2 on [imageI]: a mismatch, then a request for the next step. *)
Lemma cacheSearchCoroutine_goes_on_after_mismatch_witness :
  cacheSearchCoroutine emptyTar (mkData imageI "I")
    [{| nextCmd := "X"; prevLayerIDs := ["L9"] |};
     {| nextCmd := "B"; prevLayerIDs := [] |}]
  = ([{| nextLayerID := ""; res_createdAt := zeroTime; cachedFrom := "" |}],
     Panic IndexOutOfRange).
Proof.
  apply (cacheSearchCoroutine_goes_on_after_mismatch emptyTar (mkData imageI "I")
           (mkHistoryWithSource emptyTar "A" "L1" 10)
           (mkHistoryWithSource "L1" "B" "L2" 20) []).
  reflexivity.
Defined.

(** The comparison of two empty slices reads index 0. *)
Lemma compareLayers_empty_evaluated :
  compareLayers [] [] = ([ReadPrev 0], Panic IndexOutOfRange).
Proof. reflexivity. Qed.


(** ** The further properties on the test data *)

(** X2 on [imageAB]: entry [B] is the first to produce a layer. *)
Lemma makeHistoryWithSource_step_layers_witness :
  RootFS_DiffIDs imageAB !! producedLayers (take 1 (History_ imageAB)) = Some "L1".
Proof.
  exact (proj2 (makeHistoryWithSource_step_layers emptyTar imageAB
                  [mkHistoryWithSource emptyTar "A" emptyTar 10;
                   mkHistoryWithSource emptyTar "B" "L1" 20]
                  eq_refl 1%nat (mkHistory 20 "B" false)
                  (mkHistoryWithSource emptyTar "B" "L1" 20) eq_refl eq_refl)
               eq_refl).
Defined.

(** X3 on [imageAB]: one layer-producing entry, one layer. *)
Lemma makeHistoryWithSource_ends_on_top_layer_witness :
  ∃ steps, makeHistoryWithSource emptyTar imageAB = Ret steps
    ∧ ∀ s, last steps = Some s → resultingLayerID s = "L1".
Proof.
  apply (makeHistoryWithSource_ends_on_top_layer emptyTar imageAB).
  reflexivity.
Defined.

(** X5 on two lists that differ in their only element. *)
Lemma compareLayers_reads_in_bounds_witness :
  Forall (λ r, (read_index r < 1)%nat ∧ (read_index r < 1)%nat)
    (compareLayers ["L1"] ["L2"]).1.
Proof.
  apply (compareLayers_reads_in_bounds ["L1"] ["L2"]). discriminate.
Defined.

(** X6 on [imageI]: three requests for two steps. *)
Lemma cacheSearchCoroutine_nonempty_requests_witness :
  cacheSearchCoroutine emptyTar (mkData imageI "I")
    [{| nextCmd := "A"; prevLayerIDs := ["L9"] |};
     {| nextCmd := "B"; prevLayerIDs := ["L1"] |};
     {| nextCmd := "C"; prevLayerIDs := ["L1"; "L2"] |}]
  = ([emptyResponse; emptyResponse], Ret tt).
Proof.
  apply (cacheSearchCoroutine_nonempty_requests emptyTar (mkData imageI "I")
           [mkHistoryWithSource emptyTar "A" "L1" 10;
            mkHistoryWithSource "L1" "B" "L2" 20]).
  - reflexivity.
  - repeat constructor; discriminate.
Defined.

(** X7 on [imageI]: the second request carries no layers. *)
Lemma cacheSearchCoroutine_panics_at_empty_request_witness :
  cacheSearchCoroutine emptyTar (mkData imageI "I")
    [{| nextCmd := "A"; prevLayerIDs := ["L9"] |};
     {| nextCmd := "Z"; prevLayerIDs := [] |};
     {| nextCmd := "C"; prevLayerIDs := ["L1"] |}]
  = ([emptyResponse], Panic IndexOutOfRange).
Proof.
  apply (cacheSearchCoroutine_panics_at_empty_request emptyTar (mkData imageI "I")
           [mkHistoryWithSource emptyTar "A" "L1" 10;
            mkHistoryWithSource "L1" "B" "L2" 20]
           [{| nextCmd := "A"; prevLayerIDs := ["L9"] |}] "Z"
           [{| nextCmd := "C"; prevLayerIDs := ["L1"] |}]).
  - reflexivity.
  - repeat constructor; discriminate.
  - simpl. lia.
Defined.

(** X8 on [corruptImage]. *)
Lemma cacheSearchCoroutine_corrupt_image_witness :
  cacheSearchCoroutine emptyTar (mkData corruptImage "corrupt")
    [{| nextCmd := "B"; prevLayerIDs := ["L1"] |}]
  = ([], Panic IndexOutOfRange).
Proof.
  apply (cacheSearchCoroutine_corrupt_image emptyTar (mkData corruptImage "corrupt")).
  vm_compute. lia.
Defined.

(** X9 on [daemonI]: neither name is in the store. *)
Lemma MakeImageCacheForBuild_none_resolved_witness :
  MakeImageCacheForBuild emptyTar daemonI ["missing"; "gone"]
  = Ret (cacheOf daemonI).
Proof.
  apply (MakeImageCacheForBuild_none_resolved emptyTar daemonI ["missing"; "gone"]).
  repeat constructor; eexists; reflexivity.
Defined.

(** X10 on [daemonP]: the ID returned is the newer child's. *)
Lemma GetCachedImageOnBuild_returns_only_direct_hits_witness :
  ∃ img, GetCachedImage cmp daemonP "p" "cfg" = Ret (Some img) ∧ "new" = ID img.
Proof.
  apply (GetCachedImageOnBuild_returns_only_direct_hits cmp emptyTar
           (cacheOf daemonP) "p" "cfg" "new").
  reflexivity.
Defined.

(** X11 on [daemonP]: a cache with nil maps and one that lists [imageI]. *)
Lemma GetCachedImageOnBuild_ignores_cacheFrom_witness :
  GetCachedImageOnBuild cmp emptyTar (cacheOf daemonP) "p" "other"
  = GetCachedImageOnBuild cmp emptyTar
      {| cacheFromImages := Some {[ "I" := imageI ]};
         cacheFromImageHistories := Some ∅;
         daemon_ := daemonP |} "p" "other".
Proof.
  apply (GetCachedImageOnBuild_ignores_cacheFrom cmp emptyTar). reflexivity.
Defined.

(** X12 on [daemonCorrupt]: the parent is the corrupt image. *)
Lemma GetCachedImageOnBuild_corrupt_parent_panics_witness :
  GetCachedImageOnBuild cmp emptyTar (cacheOf daemonCorrupt) "corrupt" "cfg"
  = Panic IndexOutOfRange.
Proof.
  apply (GetCachedImageOnBuild_corrupt_parent_panics cmp emptyTar
           (cacheOf daemonCorrupt) "corrupt" "cfg" corruptImage).
  - reflexivity.
  - reflexivity.
  - vm_compute. lia.
Defined.

(** X13 on [daemonP]: the parent is found and has no history. *)
Lemma GetCachedImageOnBuild_after_miss_outcomes_witness :
  GetCachedImageOnBuild cmp emptyTar (cacheOf daemonP) "p" "other" = MissingReturn.
Proof.
  apply (proj2 (GetCachedImageOnBuild_after_miss_outcomes cmp emptyTar
                  (cacheOf daemonP) "p" "other" eq_refl) parentP).
  - reflexivity.
  - vm_compute. lia.
Defined.

(** X14 on [daemonI]: a name that parses as an ID the store lacks. *)
Lemma GetImageID_errors_witness :
  ParseIDOrReference daemonI "nope" = inl (ErrImageDoesNotExist "nope")
  ∨ ErrImageDoesNotExist "nope" = ErrImageDoesNotExist "nope".
Proof.
  apply (GetImageID_errors daemonI "nope" (ErrImageDoesNotExist "nope")).
  reflexivity.
Defined.

(** X15 on [daemonTagged]: [app] is found through its tag. *)
Lemma GetImageID_of_reference_witness :
  referenceStore_Get daemonTagged (mkReference "app" (Some "latest")) = inr "I"
  ∨ (∃ tag namedRef,
       Some "latest" = Some tag
       ∧ imageStore_Search daemonTagged tag = inr "I"
       ∧ namedRef ∈ referenceStore_References daemonTagged "I"
       ∧ ref_Name namedRef = "app")
  ∨ imageStore_Search daemonTagged "app" = inr "I".
Proof.
  apply (GetImageID_of_reference daemonTagged "app"
           (mkReference "app" (Some "latest")) "I"); reflexivity.
Defined.

(** X16 on [daemonDangling]: [ghost] is listed after a matching child. *)
Lemma GetCachedImage_missing_child_witness :
  GetCachedImage cmp daemonDangling "p" "cfg" = Fail (ErrUnableToFindImage "ghost").
Proof.
  apply (GetCachedImage_missing_child cmp daemonDangling "p" "cfg"
           ["new"] "ghost" (ErrCollaborator "image not in store") ["old"]).
  - reflexivity.
  - repeat constructor. eexists; reflexivity.
  - reflexivity.
Defined.

(** X17 on [daemonAB]: both images of the map are found by the lookup. *)
Lemma GetCachedImage_scratch_witness :
  ∃ r, GetCachedImage cmp daemonAB "" "cfg" = Ret r
    ∧ ∀ m, r = Some m →
        Parent m = "" ∧ cmp (ContainerConfig m) "cfg" = true
        ∧ ∃ id, (id, m) ∈ imageStore_Map daemonAB.
Proof.
  apply (GetCachedImage_scratch cmp daemonAB "cfg").
  intros id img Hin. apply list_elem_of_In in Hin. simpl in Hin.
  destruct Hin as [[= <- <-]|[[= <- <-]|[]]]; reflexivity.
Defined.

(** X18 on [daemonP]: the two children were created at different times. *)
Lemma getMatch_order_irrelevant_without_ties_witness :
  getMatch cmp daemonP "cfg" ["old"; "new"]
  = getMatch cmp daemonP "cfg" ["new"; "old"].
Proof.
  apply (getMatch_order_irrelevant_without_ties cmp daemonP "cfg").
  - apply perm_swap.
  - intros id Hin. apply list_elem_of_In in Hin. simpl in Hin.
    destruct Hin as [<-|[<-|[]]]; eexists; reflexivity.
  - intros id1 id2 img1 img2 Hin1 Hin2.
    apply list_elem_of_In in Hin1. apply list_elem_of_In in Hin2.
    simpl in Hin1, Hin2.
    destruct Hin1 as [<-|[<-|[]]]; destruct Hin2 as [<-|[<-|[]]];
      intros [= <-] [= <-] _ _ Htime; try reflexivity; discriminate Htime.
Defined.

(** X19 on [imageI]: the response to a mismatching request. *)
Lemma cacheSearchCoroutine_never_matches_witness :
  matched emptyResponse = false.
Proof.
  apply (cacheSearchCoroutine_never_matches emptyTar (mkData imageI "I")
           [{| nextCmd := "A"; prevLayerIDs := ["L9"] |}] emptyResponse).
  vm_compute. constructor.
Defined.

End OnTestData.
